(** * Huffman data compressor: a shallow embedding of [encoding.cpp]

    The development follows the source file function by function:
    [buildFrequencyTable], [buildEncodingTree], [flattenTreeToHeader],
    [recreateTreeFromHeader], [buildEncodingMap], [compress] and
    [decompress].  The collaborators the source includes but does not
    define (the ordered [Map], the [PriorityQueue], the [HuffmanNode]
    structure, the string helpers and the bit files) are modelled in the
    first part of the file. *)

From Stdlib Require Import ZArith List Ascii Bool Lia Permutation Sorted.
From Stdlib Require String.
Import ListNotations.

Import String.StringSyntax.
Delimit Scope string_scope with string.

Set Implicit Arguments.

(** ** Outcomes of a call

    A call either returns, throws, or is still running when the fuel
    given to a loop whose trip count is not bounded by its input is
    exhausted. *)

Inductive exn : Type :=
| out_of_range      (* std::out_of_range, thrown by std::string::substr *)
| ErrorException.   (* thrown by the collection library's error() *)

Inductive outcome (A : Type) : Type :=
| Ret (a : A)
| Throw (e : exn)
| Timeout.

Arguments Ret {A} a.
Arguments Throw {A} e.
Arguments Timeout {A}.

Definition bind {A B : Type} (c : outcome A) (k : A -> outcome B) : outcome B :=
  match c with
  | Ret a => k a
  | Throw e => Throw e
  | Timeout => Timeout
  end.

Notation "x <- c ;; k" := (bind c (fun x => k))
  (at level 61, c at next level, right associativity).
Notation "' p <- c ;; k" := (bind c (fun x => let 'p := x in k))
  (at level 61, p pattern, c at next level, right associativity).

(** ** Characters and strings *)

Abbreviation std_string := (list ascii) (only parsing).

Definition lit (s : String.string) : std_string := String.list_ascii_of_string s.

Arguments lit s%_string.

Definition char_code (c : ascii) : Z := Z.of_N (N_of_ascii c).

(** [std::string::substr(pos)]: the suffix from [pos]; throws when [pos]
    is past the end. *)
Definition substr (pos : nat) (str : std_string) : outcome std_string :=
  if Nat.leb pos (length str) then Ret (skipn pos str) else Throw out_of_range.

(** [str[i]]: the character at [i]; at [i = size()] it is the NUL
    terminator. *)
Definition char_at (i : nat) (str : std_string) : ascii := nth i str zero.

(** strlib's [startsWith(str, ch)]. *)
Definition startsWith (str : std_string) (prefix : ascii) : bool :=
  match str with
  | [] => false
  | c :: _ => Ascii.eqb c prefix
  end.

Definition charToString (c : ascii) : std_string := [c].

(** strlib's [integerToString], on the one-digit values it is applied to
    (the bits 0 and 1). *)
Definition integerToString (n : Z) : std_string :=
  [ascii_of_N (48 + Z.to_N n)].

(** strlib's [charToInteger]: the value of a digit character. *)
Definition charToInteger (c : ascii) : Z := char_code c - 48.

(** ** The type [int]

    An [int] holds 32 bits, two's complement; arithmetic on it that
    leaves the range comes back into it modulo 2^32, as the machine
    computes it. *)

Definition INT_MAX : Z := 2147483647%Z.

Definition int_wrap (z : Z) : Z :=
  ((z + 2147483648) mod 4294967296 - 2147483648)%Z.

(** ** The ordered map

    [Map<K, V>] keeps its entries in increasing key order, and two keys
    are the same key when neither is less than the other.  The key order
    is a class, as [operator<] is for the template. *)

Class Less (K : Type) : Type := less : K -> K -> bool.

Definition Map (K V : Type) : Type := list (K * V).

Section MapOps.
Context {K V : Type} `{Less K}.

Fixpoint put (k : K) (v : V) (m : Map K V) : Map K V :=
  match m with
  | [] => [(k, v)]
  | (k', v') :: m' =>
      if less k k' then (k, v) :: m
      else if less k' k then (k', v') :: put k v m'
      else (k, v) :: m'
  end.

Fixpoint get (k : K) (m : Map K V) : option V :=
  match m with
  | [] => None
  | (k', v') :: m' =>
      if less k k' || less k' k then get k m' else Some v'
  end.

Definition containsKey (k : K) (m : Map K V) : bool :=
  match get k m with Some _ => true | None => false end.

(** [m[k]] read as a value: a missing key reads as the default value of
    [V] (which [operator[]] also stores under [k]). *)
Definition subscript (default : V) (m : Map K V) (k : K) : V :=
  match get k m with Some v => v | None => default end.

Definition keys (m : Map K V) : list K := map fst m.

End MapOps.

(** [std::string] compares character by character, as unsigned values. *)
Fixpoint string_less (s t : std_string) : bool :=
  match s, t with
  | [], [] => false
  | [], _ :: _ => true
  | _ :: _, [] => false
  | a :: s', b :: t' =>
      if (char_code a <? char_code b)%Z then true
      else if (char_code b <? char_code a)%Z then false
      else string_less s' t'
  end.

#[global] Instance std_string_Less : Less std_string := string_less.

(** ** The priority queue *)

(** Modelled from the spec: the priority queue of [priorityqueue.h] is not
    part of the source file.  It offers insert-with-priority,
    extract-minimum, peek-minimum-priority and size; among equal
    priorities the element enqueued first leaves first (stable insertion
    order).  Peeking into or dequeuing from an empty queue is an error.
    The queue is kept as the list of its entries in the order in which
    they will leave it. *)
Definition PriorityQueue (V : Type) : Type := list (Z * V).

Section QueueOps.
Context {V : Type}.

Fixpoint enqueue (v : V) (p : Z) (q : PriorityQueue V) : PriorityQueue V :=
  match q with
  | [] => [(p, v)]
  | (p', v') :: q' =>
      if (p <? p')%Z then (p, v) :: q else (p', v') :: enqueue v p q'
  end.

Definition peekPriority (q : PriorityQueue V) : outcome Z :=
  match q with
  | [] => Throw ErrorException
  | (p, _) :: _ => Ret p
  end.

Definition dequeue (q : PriorityQueue V) : outcome (V * PriorityQueue V) :=
  match q with
  | [] => Throw ErrorException
  | (_, v) :: q' => Ret (v, q')
  end.

Definition size (q : PriorityQueue V) : nat := length q.

End QueueOps.

(** ** Streams and bit files *)

(** An input stream over a buffer: [unread] is what [get] has not yet
    delivered, [rewindStream] starts again from the whole buffer. *)
Record istream : Type := mk_istream {
  buffer : std_string;
  unread : std_string
}.

Definition istream_of (content : std_string) : istream :=
  {| buffer := content; unread := content |}.

Definition rewindStream (input : istream) : istream :=
  {| buffer := buffer input; unread := buffer input |}.

(** Modelled from the spec: the bit files [HuffmanOutputFile] and
    [HuffmanInputFile] are not part of the source file.  The sink takes a
    header and then individual bits; the source gives the header back and
    then the same bits, one at a time: [readBit] on [b :: rest] gives the
    bit [b] and leaves [rest], and on the exhausted stream it gives the
    end-of-stream sentinel [EOF]. *)
Record HuffmanFile : Type := mk_file {
  file_header : std_string;
  file_bits : list bool
}.

Definition empty_file : HuffmanFile := {| file_header := []; file_bits := [] |}.

Definition writeHeader (header : std_string) (output : HuffmanFile) : HuffmanFile :=
  {| file_header := header; file_bits := file_bits output |}.

Definition writeBit (bit : Z) (output : HuffmanFile) : HuffmanFile :=
  {| file_header := file_header output;
     file_bits := file_bits output ++ [negb (bit =? 0)%Z] |}.

Definition readHeader (input : HuffmanFile) : std_string := file_header input.

(** ** The tree

    A [HuffmanNode*] is either [nullptr] or points to a node that owns its
    two subtrees.  The structure itself is declared outside the source
    file: it has the fields [ch], [zero] and [one], a constructor for a
    leaf, a constructor for an interior node and [isLeaf]. *)

Inductive HuffmanNode : Type :=
| nullptr
| Node (ch : ascii) (zero one : HuffmanNode).

Definition isLeaf (t : HuffmanNode) : bool :=
  match t with
  | Node _ nullptr nullptr => true
  | _ => false
  end.

(** ** The program *)

Section Program.

(** Whether plain [char] is a signed type is left to the platform; it
    decides the order in which a [Map<char, V>] is traversed. *)
Variable char_is_signed : bool.

(** The [ch] field of a node built by the interior-node constructor,
    which the declaration of the structure (not in the source file)
    decides. *)
Variable interior_ch : ascii.

Definition char_value (c : ascii) : Z :=
  if char_is_signed && (128 <=? char_code c)%Z
  then (char_code c - 256)%Z else char_code c.

#[local] Instance char_Less : Less ascii :=
  fun a b => (char_value a <? char_value b)%Z.

(** [new HuffmanNode(ch)] and [new HuffmanNode(zero, one)]. *)
Definition new_leaf (ch : ascii) : HuffmanNode := Node ch nullptr nullptr.

Definition new_interior (zero one : HuffmanNode) : HuffmanNode :=
  Node interior_ch zero one.

(** *** buildFrequencyTable

    [freqTable[ch]++] reads the count of [ch] (0 when [ch] is new) and
    stores its successor as an [int]: the successor of [INT_MAX] is the
    least [int]. *)
Fixpoint count_chars (unread : std_string) (freqTable : Map ascii Z) : Map ascii Z :=
  match unread with
  | [] => freqTable
  | ch :: rest =>
      count_chars rest
        (put ch (int_wrap (subscript 0%Z freqTable ch + 1)) freqTable)
  end.

Definition buildFrequencyTable (input : istream) : Map ascii Z * istream :=
  (count_chars (unread input) [],
   {| buffer := buffer input; unread := [] |}).

(** *** buildEncodingTree

    The priorities are [double]s that hold [int] counts and sums of
    them, one count per key of a [Map<char, int>] at most; they are kept
    as integers, which is exact below 2^53. *)

Definition enqueue_leaves (freqTable : Map ascii Z) : PriorityQueue HuffmanNode :=
  fold_left
    (fun weights ch => enqueue (new_leaf ch) (subscript 0%Z freqTable ch) weights)
    (keys freqTable) [].

(** One trip through the body of the [while] loop. *)
Definition combine_two (weights : PriorityQueue HuffmanNode)
  : outcome (PriorityQueue HuffmanNode) :=
  first <- peekPriority weights ;;
  '(tree1, weights1) <- dequeue weights ;;
  second <- peekPriority weights1 ;;
  '(tree2, weights2) <- dequeue weights1 ;;
  Ret (enqueue (new_interior tree1 tree2) (first + second)%Z weights2).

Fixpoint combine_all (fuel : nat) (weights : PriorityQueue HuffmanNode)
  : outcome (PriorityQueue HuffmanNode) :=
  if Nat.eqb (size weights) 1 then Ret weights
  else match fuel with
       | O => Timeout
       | S fuel' =>
           weights' <- combine_two weights ;;
           combine_all fuel' weights'
       end.

(** Each trip through a queue of two or more entries shortens it by one,
    and the trip through an empty queue throws, so the loop never makes
    more than [S (size weights)] trips. *)
Definition buildEncodingTree (freqTable : Map ascii Z) : outcome HuffmanNode :=
  let weights := enqueue_leaves freqTable in
  weights' <- combine_all (S (size weights)) weights ;;
  '(tree, _) <- dequeue weights' ;;
  Ret tree.

(** *** flattenTreeToHeader *)

Fixpoint flattenTreeToHeader (t : HuffmanNode) : std_string :=
  match t with
  | nullptr => []
  | Node ch zero one =>
      if isLeaf (Node ch zero one) then "."%char :: charToString ch
      else "("%char :: flattenTreeToHeader zero
             ++ flattenTreeToHeader one ++ [")"%char]
  end.

(** *** recreateTreeFromHeader

    The helper takes the string by reference and leaves in it what it
    has not consumed; here it returns that rest together with the tree.
    Every call that recurs has first dropped a character, so a fuel of
    one more than the length of the string is never used up. *)
Fixpoint recreateTreeFromHeaderHelper (fuel : nat) (str : std_string)
  : outcome (HuffmanNode * std_string) :=
  match fuel with
  | O => Timeout
  | S fuel' =>
      if startsWith str "."%char then
        let tree := new_leaf (char_at 1 str) in
        str1 <- substr 2 str ;;
        Ret (tree, str1)
      else
        str1 <- substr 1 str ;;
        '(zero, str2) <- recreateTreeFromHeaderHelper fuel' str1 ;;
        '(one, str3) <- recreateTreeFromHeaderHelper fuel' str2 ;;
        str4 <- substr 1 str3 ;;
        Ret (new_interior zero one, str4)
  end.

Definition recreateTreeFromHeader (str : std_string) : outcome HuffmanNode :=
  '(tree, _) <- recreateTreeFromHeaderHelper (S (length str)) str ;;
  Ret tree.

(** *** buildEncodingMap *)

Fixpoint gatherLeaves (tree : HuffmanNode) (map : Map ascii std_string)
  (code : std_string) : Map ascii std_string :=
  match tree with
  | nullptr => map
  | Node ch zero one =>
      if isLeaf (Node ch zero one) then put ch code map
      else
        let map1 := gatherLeaves zero map (code ++ integerToString 0) in
        gatherLeaves one map1 (code ++ integerToString 1)
  end.

Definition buildEncodingMap (encodingTree : HuffmanNode) : Map ascii std_string :=
  gatherLeaves encodingTree [] [].

(** *** compress *)

(** The [for] loop over the bits of one code. *)
Definition write_code (bits : std_string) (output : HuffmanFile) : HuffmanFile :=
  fold_left (fun out c => writeBit (charToInteger c) out) bits output.

(** The [while] loop of the second pass over the input. *)
Fixpoint write_codes (binaryMap : Map ascii std_string) (unread : std_string)
  (output : HuffmanFile) : HuffmanFile :=
  match unread with
  | [] => output
  | ch :: rest =>
      write_codes binaryMap rest (write_code (subscript [] binaryMap ch) output)
  end.

Definition compress (input : istream) (output : HuffmanFile)
  : outcome (istream * HuffmanFile) :=
  let '(freqTable, input1) := buildFrequencyTable input in
  tree <- buildEncodingTree freqTable ;;
  let header := flattenTreeToHeader tree in
  let binaryMap := buildEncodingMap tree in
  let output1 := writeHeader header output in
  let input2 := rewindStream input1 in
  Ret ({| buffer := buffer input2; unread := [] |},
       write_codes binaryMap (unread input2) output1).

(** *** decompress *)

Definition invert_map (binaryMap : Map ascii std_string) : Map std_string ascii :=
  fold_left
    (fun characterMap ch => put (subscript [] binaryMap ch) ch characterMap)
    (keys binaryMap) [].

(** How the inner [while] loop ends: with [bits] a key of the character
    map, or on [EOF], where [decompress] returns. *)
Inductive scan : Type :=
| Matched (bits : std_string) (rest : list bool)
| EndOfStream (bits : std_string).

Fixpoint read_code (characterMap : Map std_string ascii) (bits : std_string)
  (input : list bool) {struct input} : scan :=
  if containsKey bits characterMap then Matched bits input
  else match input with
       | [] => EndOfStream bits
       | bit :: rest =>
           read_code characterMap (bits ++ integerToString (Z.b2z bit)) rest
       end.

(** The [while (true)] loop, run for at most [fuel] trips.  It hands back
    what has been put on the output so far; when the function returns,
    [Ret bits] records the local [bits] at that moment. *)
Fixpoint decode_loop (fuel : nat) (characterMap : Map std_string ascii)
  (input : list bool) (output : std_string) : std_string * outcome std_string :=
  match fuel with
  | O => (output, Timeout)
  | S fuel' =>
      match read_code characterMap [] input with
      | EndOfStream bits => (output, Ret bits)
      | Matched bits rest =>
          decode_loop fuel' characterMap rest
            (output ++ [subscript zero characterMap bits])
      end
  end.

Definition decompress (fuel : nat) (input : HuffmanFile) (output : std_string)
  : std_string * outcome std_string :=
  match recreateTreeFromHeader (readHeader input) with
  | Ret tree =>
      let binaryMap := buildEncodingMap tree in
      let characterMap := invert_map binaryMap in
      decode_loop fuel characterMap (file_bits input) output
  | Throw e => (output, Throw e)
  | Timeout => (output, Timeout)
  end.

(** ** Notions used to state the properties *)

(** Strictly binary: a node has no subtree or two, all the way down. *)
Fixpoint strictly_binary (t : HuffmanNode) : bool :=
  match t with
  | nullptr => false
  | Node _ zero one =>
      match zero, one with
      | nullptr, nullptr => true
      | _, _ => strictly_binary zero && strictly_binary one
      end
  end.

(** Same shape, and the same symbol at each leaf. *)
Fixpoint same_structure (t t' : HuffmanNode) : Prop :=
  match t, t' with
  | nullptr, nullptr => True
  | Node ch zero one, Node ch' zero' one' =>
      (isLeaf (Node ch zero one) = true -> ch = ch')
      /\ same_structure zero zero' /\ same_structure one one'
  | _, _ => False
  end.

(** The tree with the [ch] field of its interior nodes set as the
    interior-node constructor sets it. *)
Fixpoint relabel (t : HuffmanNode) : HuffmanNode :=
  match t with
  | nullptr => nullptr
  | Node ch zero one =>
      if isLeaf (Node ch zero one) then new_leaf ch
      else new_interior (relabel zero) (relabel one)
  end.

Fixpoint height (t : HuffmanNode) : nat :=
  match t with
  | nullptr => 0
  | Node _ zero one => S (Nat.max (height zero) (height one))
  end.

(** The leaf symbols, from the zero side to the one side. *)
Fixpoint leaves (t : HuffmanNode) : list ascii :=
  match t with
  | nullptr => []
  | Node ch zero one =>
      if isLeaf (Node ch zero one) then [ch] else leaves zero ++ leaves one
  end.

Definition queue_leaves (q : PriorityQueue HuffmanNode) : list ascii :=
  flat_map (fun e => leaves (snd e)) q.

(** [path_to t p c]: following [p] from the root of [t], "0" into the
    zero subtree and "1" into the one subtree, ends at a leaf that
    carries [c]. *)
Inductive path_to : HuffmanNode -> std_string -> ascii -> Prop :=
| path_leaf c : path_to (Node c nullptr nullptr) [] c
| path_zero ch zero one p c :
    isLeaf (Node ch zero one) = false ->
    path_to zero p c -> path_to (Node ch zero one) ("0"%char :: p) c
| path_one ch zero one p c :
    isLeaf (Node ch zero one) = false ->
    path_to one p c -> path_to (Node ch zero one) ("1"%char :: p) c.

Definition is_prefix (p w : std_string) : Prop := exists s, w = p ++ s.

Definition occurrences (c : ascii) (s : std_string) : Z :=
  Z.of_nat (count_occ ascii_dec s c).

(** The keys of a [Map<char, V>] stand in increasing order. *)
Definition keys_sorted {V : Type} (m : Map ascii V) : Prop :=
  StronglySorted (fun a b => (char_value a < char_value b)%Z) (keys m).

(** The bit written for a character of a code. *)
Definition bit_of (c : ascii) : bool := negb (charToInteger c =? 0)%Z.

(** The bits [compress] writes for an input, code after code. *)
Definition payload (binaryMap : Map ascii std_string) (s : std_string) : list bool :=
  flat_map (fun ch => map bit_of (subscript [] binaryMap ch)) s.

(** The entries of a queue leave it in the order of their priorities. *)
Definition queue_sorted (q : PriorityQueue HuffmanNode) : Prop :=
  StronglySorted (fun e e' => (fst e <= fst e')%Z) q.

(** What the spec says of the tree builder, as a relation between the
    queue and the tree it ends with: take out a node of least priority,
    then another, put back their combination under the sum of the two
    priorities, and stop when one node is left. *)
Definition least_of (q : PriorityQueue HuffmanNode) (e : Z * HuffmanNode)
  (q' : PriorityQueue HuffmanNode) : Prop :=
  (exists l1 l2, q = l1 ++ e :: l2 /\ q' = l1 ++ l2)
  /\ Forall (fun e' => (fst e <= fst e')%Z) q.

Inductive huffman_spec : PriorityQueue HuffmanNode -> HuffmanNode -> Prop :=
| spec_stop p t : huffman_spec [(p, t)] t
| spec_combine q p1 t1 q1 p2 t2 q2 t :
    least_of q (p1, t1) q1 ->
    least_of q1 (p2, t2) q2 ->
    huffman_spec (enqueue (new_interior t1 t2) (p1 + p2)%Z q2) t ->
    huffman_spec q t.

(** The queue after [n] trips through the body of the [while] loop of
    [buildEncodingTree]. *)
Fixpoint combine_trips (n : nat) (weights : PriorityQueue HuffmanNode)
  : outcome (PriorityQueue HuffmanNode) :=
  match n with
  | O => Ret weights
  | S n' =>
      weights' <- combine_two weights ;;
      combine_trips n' weights'
  end.

(** The sum of the counts of a table. *)
Definition table_total (freqTable : Map ascii Z) : Z :=
  fold_right Z.add 0%Z (map snd freqTable).

(** The sum, over the leaves of a tree, of the counts of their symbols. *)
Definition weight (freqTable : Map ascii Z) (t : HuffmanNode) : Z :=
  fold_right Z.add 0%Z (map (subscript 0%Z freqTable) (leaves t)).

(** The paths to the leaves that carry [c], in the order in which
    [gatherLeaves] meets them: the zero side before the one side. *)
Fixpoint paths_to (t : HuffmanNode) (c : ascii) : list std_string :=
  match t with
  | nullptr => []
  | Node ch zero one =>
      if isLeaf (Node ch zero one)
      then (if Ascii.eqb ch c then [[]] else [])
      else map (cons "0"%char) (paths_to zero c)
           ++ map (cons "1"%char) (paths_to one c)
  end.

(** * Properties *)

(** ** The key orders *)

Lemma char_code_inj a b : char_code a = char_code b -> a = b.
Proof.
  unfold char_code. intros E. apply N2Z.inj in E.
  rewrite <- (ascii_N_embedding a), <- (ascii_N_embedding b). now rewrite E.
Qed.

Lemma char_code_range a : (0 <= char_code a < 256)%Z.
Proof.
  unfold char_code. pose proof (N_ascii_bounded a). lia.
Qed.

Lemma char_value_inj a b : char_value a = char_value b -> a = b.
Proof.
  unfold char_value. intros E. apply char_code_inj.
  pose proof (char_code_range a). pose proof (char_code_range b).
  destruct char_is_signed; simpl in E;
    destruct (128 <=? char_code a)%Z eqn:Ea;
    destruct (128 <=? char_code b)%Z eqn:Eb; lia.
Qed.

Lemma char_less_irrefl (a : ascii) : less a a = false.
Proof. unfold less, char_Less. apply Z.ltb_irrefl. Qed.

Lemma char_less_same (a b : ascii) :
  less a b = false -> less b a = false -> a = b.
Proof.
  unfold less, char_Less. intros H1 H2. apply char_value_inj. lia.
Qed.

Lemma string_less_irrefl (s : std_string) : less s s = false.
Proof.
  unfold less, std_string_Less.
  induction s as [|a s IH]; simpl; [reflexivity|].
  now rewrite Z.ltb_irrefl.
Qed.

Lemma string_less_same (s t : std_string) :
  less s t = false -> less t s = false -> s = t.
Proof.
  unfold less, std_string_Less. revert t.
  induction s as [|a s IH]; intros [|b t]; simpl; try discriminate; auto.
  destruct (char_code a <? char_code b)%Z eqn:E1; [discriminate|].
  destruct (char_code b <? char_code a)%Z eqn:E2; [discriminate|].
  intros H1 H2. f_equal; [apply char_code_inj; lia | now apply IH].
Qed.

(** ** The map laws, for any key order in which two keys that are not
    ordered either way are equal *)

Section MapLaws.
Context {K V : Type} `{Less K}.
Hypothesis less_irrefl : forall k : K, less k k = false.
Hypothesis less_same : forall a b : K, less a b = false -> less b a = false -> a = b.

Lemma get_head (k k' : K) (v : V) (m : Map K V) :
  get k ((k', v) :: m) = if less k k' || less k' k then get k m else Some v.
Proof. reflexivity. Qed.

Lemma get_put_same (k : K) (v : V) (m : Map K V) : get k (put k v m) = Some v.
Proof.
  induction m as [|[k' v'] m IH]; simpl.
  - now rewrite less_irrefl.
  - destruct (less k k') eqn:E1; simpl.
    + now rewrite less_irrefl.
    + destruct (less k' k) eqn:E2; simpl.
      * rewrite E1, E2. simpl. exact IH.
      * now rewrite less_irrefl.
Qed.

Lemma get_put_other (k k2 : K) (v : V) (m : Map K V) :
  k2 <> k -> get k2 (put k v m) = get k2 m.
Proof.
  intros Hne. induction m as [|[k' v'] m IH]; simpl.
  - destruct (less k2 k) eqn:E1; [reflexivity|].
    destruct (less k k2) eqn:E2; [reflexivity|].
    exfalso. apply Hne. now apply less_same.
  - destruct (less k k') eqn:E1; simpl.
    + destruct (less k2 k) eqn:E3; [reflexivity|].
      destruct (less k k2) eqn:E4; [reflexivity|].
      exfalso. apply Hne. now apply less_same.
    + destruct (less k' k) eqn:E2; simpl.
      * now rewrite IH.
      * assert (k = k') by now apply less_same. subst k'.
        destruct (less k2 k) eqn:E3; [reflexivity|].
        destruct (less k k2) eqn:E4; [reflexivity|].
        exfalso. apply Hne. now apply less_same.
Qed.

Lemma get_put (k k2 : K) (v : V) (m : Map K V) :
  (k2 = k /\ get k2 (put k v m) = Some v)
  \/ (k2 <> k /\ get k2 (put k v m) = get k2 m).
Proof.
  destruct (less k2 k) eqn:E1.
  - right. assert (k2 <> k) by (intros ->; rewrite less_irrefl in E1; discriminate).
    split; [assumption | now apply get_put_other].
  - destruct (less k k2) eqn:E2.
    + right. assert (k2 <> k) by (intros ->; rewrite less_irrefl in E2; discriminate).
      split; [assumption | now apply get_put_other].
    + left. assert (k2 = k) by now apply less_same. subst.
      split; [reflexivity | apply get_put_same].
Qed.

Lemma subscript_put_same (d : V) (k : K) (v : V) (m : Map K V) :
  subscript d (put k v m) k = v.
Proof. unfold subscript. now rewrite get_put_same. Qed.

Lemma subscript_put_other (d : V) (k k2 : K) (v : V) (m : Map K V) :
  k2 <> k -> subscript d (put k v m) k2 = subscript d m k2.
Proof. intros Hne. unfold subscript. now rewrite get_put_other. Qed.

Lemma keys_put (k : K) (v : V) (m : Map K V) (x : K) :
  In x (keys (put k v m)) <-> x = k \/ In x (keys m).
Proof.
  unfold keys. induction m as [|[k' v'] m IH]; simpl.
  - intuition.
  - destruct (less k k') eqn:E1; simpl; [intuition|].
    destruct (less k' k) eqn:E2; simpl.
    + rewrite IH. intuition.
    + assert (k = k') by now apply less_same. subst. intuition.
Qed.

Lemma get_key (k : K) (m : Map K V) :
  In k (keys m) -> exists v, get k m = Some v.
Proof.
  unfold keys. induction m as [|[k' v'] m IH]; simpl; [tauto|].
  intros [->|Hin].
  - rewrite less_irrefl. simpl. eauto.
  - destruct (less k k' || less k' k); eauto.
Qed.

Lemma get_some_key (k : K) (v : V) (m : Map K V) :
  get k m = Some v -> In k (keys m).
Proof.
  unfold keys. induction m as [|[k' v'] m IH]; simpl; [discriminate|].
  destruct (less k k') eqn:E1; simpl; [auto|].
  destruct (less k' k) eqn:E2; simpl; [auto|].
  intros _. left. symmetry. now apply less_same.
Qed.

End MapLaws.

(** ** buildFrequencyTable *)

Lemma occurrences_cons (c ch : ascii) (s : std_string) :
  occurrences c (ch :: s)
  = ((if ascii_dec ch c then 1 else 0) + occurrences c s)%Z.
Proof.
  unfold occurrences. simpl. destruct (ascii_dec ch c); lia.
Qed.

Lemma occurrences_nonneg (c : ascii) (s : std_string) : (0 <= occurrences c s)%Z.
Proof. unfold occurrences. lia. Qed.

Lemma int_wrap_exact (z : Z) :
  (- 2147483648 <= z <= INT_MAX)%Z -> int_wrap z = z.
Proof.
  unfold int_wrap, INT_MAX. intros Hz.
  rewrite Z.mod_small by lia. lia.
Qed.

Lemma int_wrap_add (a b : Z) : int_wrap (int_wrap a + b) = int_wrap (a + b).
Proof.
  unfold int_wrap.
  replace ((a + 2147483648) mod 4294967296 - 2147483648 + b + 2147483648)%Z
    with ((a + 2147483648) mod 4294967296 + b)%Z by lia.
  rewrite Zplus_mod_idemp_l. do 2 f_equal. lia.
Qed.

Lemma occurrences_repeat (c : ascii) (n : nat) :
  occurrences c (repeat c n) = Z.of_nat n.
Proof.
  induction n as [|n IH]; [reflexivity|].
  cbn [repeat]. rewrite occurrences_cons, IH.
  destruct (ascii_dec c c); [lia|congruence].
Qed.

(** The count the loop leaves for a byte that occurs is the [int] that
    the count before the loop plus the number of occurrences comes to. *)
Lemma get_count_chars (s : std_string) (m : Map ascii Z) (c : ascii) :
  get c (count_chars s m)
  = if (occurrences c s =? 0)%Z then get c m
    else Some (int_wrap (subscript 0%Z m c + occurrences c s)).
Proof.
  revert m. induction s as [|ch s IH]; intros m; simpl.
  - reflexivity.
  - rewrite IH, occurrences_cons. pose proof (occurrences_nonneg c s) as Hs.
    destruct (ascii_dec ch c) as [->|Hne].
    + rewrite (get_put_same char_less_irrefl).
      rewrite (subscript_put_same char_less_irrefl).
      destruct (occurrences c s =? 0)%Z eqn:E0;
        destruct (1 + occurrences c s =? 0)%Z eqn:E1; try lia.
      * do 2 f_equal. lia.
      * rewrite int_wrap_add. do 2 f_equal. lia.
    + rewrite (get_put_other char_less_same) by congruence.
      rewrite (subscript_put_other char_less_same) by congruence.
      reflexivity.
Qed.

(** C9, within the range of [int]: [buildFrequencyTable] reads the
    stream to its end and returns the table that holds, for a byte that
    occurs at most [INT_MAX] times, its exact number of occurrences, and
    nothing for a byte that does not occur; the table of an empty input
    is empty. *)
Theorem buildFrequencyTable_exact_counts (input : istream) (c : ascii) :
  (occurrences c (unread input) <= INT_MAX)%Z ->
  unread (snd (buildFrequencyTable input)) = []
  /\ get c (fst (buildFrequencyTable input))
     = (if (occurrences c (unread input) =? 0)%Z then None
        else Some (occurrences c (unread input)))
  /\ fst (buildFrequencyTable (istream_of [])) = [].
Proof.
  intros Hmax. unfold buildFrequencyTable. simpl. repeat split.
  rewrite get_count_chars. simpl.
  pose proof (occurrences_nonneg c (unread input)).
  destruct (occurrences c (unread input) =? 0)%Z; [reflexivity|].
  unfold subscript. cbn [get]. rewrite int_wrap_exact; [reflexivity|].
  unfold INT_MAX in *. lia.
Qed.

(** ** The header codec *)

Lemma isLeaf_true (t : HuffmanNode) :
  isLeaf t = true -> exists c, t = Node c nullptr nullptr.
Proof.
  destruct t as [|c [|? ? ?] [|? ? ?]]; simpl; try discriminate. eauto.
Qed.

Lemma strictly_binary_interior (ch : ascii) (zero one : HuffmanNode) :
  strictly_binary (Node ch zero one) = true ->
  isLeaf (Node ch zero one) = false ->
  strictly_binary zero = true /\ strictly_binary one = true.
Proof.
  simpl. destruct zero, one; simpl; intros H1 H2;
    try discriminate; apply andb_prop in H1; exact H1.
Qed.

Lemma same_structure_relabel (t : HuffmanNode) : same_structure t (relabel t).
Proof.
  induction t as [|ch zero IHz one IHo]; [exact I|].
  cbn [relabel]. destruct (isLeaf (Node ch zero one)) eqn:E.
  - destruct (isLeaf_true _ E) as [c Hc]. injection Hc as -> -> ->.
    simpl. auto.
  - cbn [same_structure new_interior]. rewrite E. split; [discriminate|]. auto.
Qed.

Lemma startsWith_dot (c : ascii) (s : std_string) :
  startsWith (c :: s) "."%char = Ascii.eqb c "."%char.
Proof. reflexivity. Qed.

Lemma height_flatten (t : HuffmanNode) :
  strictly_binary t = true -> height t < length (flattenTreeToHeader t).
Proof.
  induction t as [|ch zero IHz one IHo]; [discriminate|].
  intros Hsb. cbn [flattenTreeToHeader height].
  destruct (isLeaf (Node ch zero one)) eqn:E.
  - destruct (isLeaf_true _ E) as [c Hc]. injection Hc as -> -> ->. simpl. lia.
  - destruct (strictly_binary_interior _ _ _ Hsb E) as [Hz Ho].
    specialize (IHz Hz). specialize (IHo Ho).
    cbn [length]. rewrite !length_app. simpl. lia.
Qed.

(** Parsing the header of a tree, whatever follows it, gives the tree
    back and leaves what follows. *)
Lemma helper_flatten (t : HuffmanNode) :
  strictly_binary t = true ->
  forall fuel rest, height t <= fuel ->
    recreateTreeFromHeaderHelper fuel (flattenTreeToHeader t ++ rest)
    = Ret (relabel t, rest).
Proof.
  induction t as [|ch zero IHz one IHo]; [discriminate|].
  intros Hsb fuel rest Hfuel.
  destruct fuel as [|fuel]; [simpl in Hfuel; lia|].
  cbn [height] in Hfuel.
  cbn [flattenTreeToHeader relabel].
  destruct (isLeaf (Node ch zero one)) eqn:E.
  - destruct (isLeaf_true _ E) as [c Hc]. injection Hc as -> -> ->.
    reflexivity.
  - destruct (strictly_binary_interior _ _ _ Hsb E) as [Hz Ho].
    cbn [recreateTreeFromHeaderHelper app]. rewrite startsWith_dot.
    cbn [Ascii.eqb Bool.eqb andb]. cbn [substr length Nat.leb skipn bind].
    rewrite <- !app_assoc.
    rewrite (IHz Hz) by lia. cbn [bind].
    rewrite (IHo Ho) by lia. cbn [bind].
    reflexivity.
Qed.

(** C2: for every strictly binary tree, parsing its header gives a tree
    of the same shape with the same symbol at each leaf, whatever bytes
    the leaves carry. *)
Theorem header_round_trip (T : HuffmanNode) :
  strictly_binary T = true ->
  exists T', recreateTreeFromHeader (flattenTreeToHeader T) = Ret T'
             /\ same_structure T T'.
Proof.
  intros Hsb. exists (relabel T). split; [|apply same_structure_relabel].
  unfold recreateTreeFromHeader.
  rewrite <- (app_nil_r (flattenTreeToHeader T)) at 2.
  rewrite helper_flatten; [reflexivity|assumption|].
  pose proof (height_flatten T Hsb). lia.
Qed.

(** ** The encoding map *)

Lemma integerToString_0 : integerToString 0 = ["0"%char].
Proof. reflexivity. Qed.

Lemma integerToString_1 : integerToString 1 = ["1"%char].
Proof. reflexivity. Qed.

(** A path that ends at a leaf cannot be continued to a leaf. *)
Lemma path_to_extend (t : HuffmanNode) (q : std_string) (c' : ascii) :
  path_to t q c' ->
  forall r c, path_to t (q ++ r) c -> r = [] /\ c = c'.
Proof.
  induction 1 as [c'|ch zero one p c' Hleaf Hp IH|ch zero one p c' Hleaf Hp IH];
    intros r c Hr; simpl in Hr.
  - inversion Hr; subst; simpl in *; try discriminate. auto.
  - inversion Hr; subst. now apply IH.
  - inversion Hr; subst. now apply IH.
Qed.

Lemma path_to_leaves (t : HuffmanNode) (p : std_string) (c : ascii) :
  path_to t p c -> In c (leaves t).
Proof.
  induction 1 as [c|ch zero one p c Hleaf Hp IH|ch zero one p c Hleaf Hp IH];
    cbn [leaves].
  - simpl. auto.
  - rewrite Hleaf. apply in_or_app. auto.
  - rewrite Hleaf. apply in_or_app. auto.
Qed.

Lemma leaves_path_to (t : HuffmanNode) (c : ascii) :
  In c (leaves t) -> exists p, path_to t p c.
Proof.
  induction t as [|ch zero IHz one IHo]; [intros []|].
  cbn [leaves]. destruct (isLeaf (Node ch zero one)) eqn:E.
  - destruct (isLeaf_true _ E) as [c0 Hc]. injection Hc as <- -> ->.
    intros [->|[]]. exists []. constructor.
  - intros Hin. apply in_app_or in Hin. destruct Hin as [Hin|Hin].
    + destruct (IHz Hin) as [p Hp]. exists ("0"%char :: p). now constructor.
    + destruct (IHo Hin) as [p Hp]. exists ("1"%char :: p). now apply path_one.
Qed.

Lemma path_to_bits (t : HuffmanNode) (p : std_string) (c : ascii) :
  path_to t p c -> Forall (fun d => d = "0"%char \/ d = "1"%char) p.
Proof.
  induction 1; constructor; auto.
Qed.

Lemma path_to_interior (t : HuffmanNode) (p : std_string) (c : ascii) :
  path_to t p c -> isLeaf t = false -> p <> [].
Proof.
  destruct 1; simpl; intros; discriminate.
Qed.

(** An entry of the map after [gatherLeaves] is an entry of the map
    before it, or the code under which the call was made followed by a
    path to a leaf. *)
Lemma gatherLeaves_get (t : HuffmanNode) :
  forall map code a w,
    get a (gatherLeaves t map code) = Some w ->
    get a map = Some w \/ exists p, w = code ++ p /\ path_to t p a.
Proof.
  induction t as [|ch zero IHz one IHo]; intros map code a w; [auto|].
  cbn [gatherLeaves]. destruct (isLeaf (Node ch zero one)) eqn:E.
  - destruct (isLeaf_true _ E) as [c0 Hc]. injection Hc as <- -> ->.
    destruct (get_put char_less_irrefl char_less_same ch a code map)
      as [[-> Hg]|[Hne Hg]]; rewrite Hg.
    + intros [= <-]. right. exists []. rewrite app_nil_r. split; [reflexivity|constructor].
    + auto.
  - intros Hg. apply IHo in Hg. destruct Hg as [Hg|[p [-> Hp]]].
    + apply IHz in Hg. destruct Hg as [Hg|[p [-> Hp]]]; [auto|].
      right. exists ("0"%char :: p). rewrite integerToString_0, <- app_assoc.
      split; [reflexivity | now constructor].
    + right. exists ("1"%char :: p). rewrite integerToString_1, <- app_assoc.
      split; [reflexivity | now apply path_one].
Qed.

Lemma buildEncodingMap_path (tree : HuffmanNode) (a : ascii) (w : std_string) :
  get a (buildEncodingMap tree) = Some w -> path_to tree w a.
Proof.
  unfold buildEncodingMap. intros Hg.
  apply gatherLeaves_get in Hg. destruct Hg as [Hg|[p [-> Hp]]]; [discriminate|].
  exact Hp.
Qed.

(** C3: in a map produced by [buildEncodingMap], the codes of two
    distinct symbols are not prefixes of one another. *)
Theorem encoding_map_prefix_free (tree : HuffmanNode) (a b : ascii)
  (code_a code_b : std_string) :
  a <> b ->
  get a (buildEncodingMap tree) = Some code_a ->
  get b (buildEncodingMap tree) = Some code_b ->
  ~ is_prefix code_a code_b /\ ~ is_prefix code_b code_a.
Proof.
  intros Hne Ha Hb.
  apply buildEncodingMap_path in Ha. apply buildEncodingMap_path in Hb.
  split; intros [s ->].
  - destruct (@path_to_extend _ _ _ Ha _ _ Hb) as [_ E]. congruence.
  - destruct (@path_to_extend _ _ _ Hb _ _ Ha) as [_ E]. congruence.
Qed.

Lemma gatherLeaves_other (t : HuffmanNode) :
  forall map code a,
    ~ In a (leaves t) -> get a (gatherLeaves t map code) = get a map.
Proof.
  induction t as [|ch zero IHz one IHo]; intros map code a; [reflexivity|].
  cbn [gatherLeaves leaves]. destruct (isLeaf (Node ch zero one)) eqn:E.
  - intros Hnin. apply (get_put_other char_less_same).
    intros ->. apply Hnin. simpl. auto.
  - intros Hnin. rewrite IHo, IHz; [reflexivity| |];
      intros Hin; apply Hnin, in_or_app; auto.
Qed.

(** When no symbol sits at two leaves, each symbol is mapped to the path
    to its leaf. *)
Lemma gatherLeaves_path (t : HuffmanNode) :
  NoDup (leaves t) ->
  forall map code p a,
    path_to t p a -> get a (gatherLeaves t map code) = Some (code ++ p).
Proof.
  induction t as [|ch zero IHz one IHo]; intros Hnd map code p a Hp;
    [inversion Hp|].
  cbn [gatherLeaves leaves] in *. destruct (isLeaf (Node ch zero one)) eqn:E.
  - destruct (isLeaf_true _ E) as [c0 Hc]. injection Hc as <- -> ->.
    inversion Hp; subst; simpl in *; try discriminate.
    rewrite app_nil_r. apply (get_put_same char_less_irrefl).
  - apply NoDup_app_remove_l in Hnd as Hndo.
    apply NoDup_app_remove_r in Hnd as Hndz.
    inversion Hp as [|? ? ? p' ? Hl Hp'|? ? ? p' ? Hl Hp']; subst.
    + simpl in E. discriminate.
    + rewrite gatherLeaves_other.
      * rewrite (IHz Hndz _ _ _ _ Hp'), integerToString_0, <- app_assoc. reflexivity.
      * intros Hin. apply path_to_leaves in Hp'.
        revert Hnd Hp' Hin. clear. intros Hnd Hz Ho.
        induction (leaves zero) as [|x l IH]; simpl in *; [tauto|].
        inversion Hnd as [|? ? Hx Hnd']; subst. destruct Hz as [->|Hz]; [|auto].
        apply Hx, in_or_app. auto.
    + rewrite (IHo Hndo _ _ _ _ Hp'), integerToString_1, <- app_assoc. reflexivity.
Qed.

(** ** The tree builder *)

Lemma enqueue_size (t : HuffmanNode) (p : Z) (q : PriorityQueue HuffmanNode) :
  size (enqueue t p q) = S (size q).
Proof.
  unfold size. induction q as [|[p' t'] q IH]; simpl; [reflexivity|].
  destruct (p <? p')%Z; simpl; [reflexivity | now rewrite IH].
Qed.

Lemma enqueue_perm (t : HuffmanNode) (p : Z) (q : PriorityQueue HuffmanNode) :
  Permutation (enqueue t p q) ((p, t) :: q).
Proof.
  induction q as [|[p' t'] q IH]; simpl; [reflexivity|].
  destruct (p <? p')%Z; [reflexivity|].
  rewrite IH. apply perm_swap.
Qed.

Lemma enqueue_sorted (t : HuffmanNode) (p : Z) (q : PriorityQueue HuffmanNode) :
  queue_sorted q -> queue_sorted (enqueue t p q).
Proof.
  unfold queue_sorted. induction q as [|[p' t'] q IH]; simpl; intros Hs.
  - repeat constructor.
  - inversion Hs as [|? ? Hq Hall]; subst.
    destruct (p <? p')%Z eqn:E.
    + constructor; [assumption|]. constructor; [simpl; lia|].
      eapply Forall_impl; [|exact Hall]. simpl. intros; lia.
    + constructor; [now apply IH|].
      eapply Permutation_Forall; [symmetry; apply enqueue_perm|].
      constructor; [simpl; lia | assumption].
Qed.

Lemma queue_leaves_perm (q q' : PriorityQueue HuffmanNode) :
  Permutation q q' -> Permutation (queue_leaves q) (queue_leaves q').
Proof.
  unfold queue_leaves. induction 1; simpl.
  - reflexivity.
  - now apply Permutation_app_head.
  - rewrite !app_assoc. apply Permutation_app_tail, Permutation_app_comm.
  - etransitivity; eassumption.
Qed.

Lemma strictly_binary_new_interior (t1 t2 : HuffmanNode) :
  strictly_binary t1 = true -> strictly_binary t2 = true ->
  strictly_binary (new_interior t1 t2) = true
  /\ isLeaf (new_interior t1 t2) = false
  /\ leaves (new_interior t1 t2) = leaves t1 ++ leaves t2.
Proof.
  intros H1 H2. destruct t1 as [|c1 z1 o1]; [discriminate|].
  unfold new_interior. cbn [leaves isLeaf]. cbn [strictly_binary].
  cbn [strictly_binary] in H1, H2. rewrite H1, H2. auto.
Qed.

(** The queue of leaves the first loop builds. *)
Lemma enqueue_leaves_fold (freqTable : Map ascii Z) (l : list ascii) :
  forall q,
    queue_sorted q ->
    Forall (fun e => strictly_binary (snd e) = true) q ->
    let q' := fold_left
      (fun weights ch => enqueue (new_leaf ch) (subscript 0%Z freqTable ch) weights)
      l q in
    queue_sorted q'
    /\ Forall (fun e => strictly_binary (snd e) = true) q'
    /\ Permutation q'
         (q ++ map (fun ch => (subscript 0%Z freqTable ch, new_leaf ch)) l).
Proof.
  induction l as [|ch l IH]; intros q Hs Hb; simpl.
  - rewrite app_nil_r. auto.
  - specialize (IH (enqueue (new_leaf ch) (subscript 0%Z freqTable ch) q)).
    destruct IH as [Hs' [Hb' Hp]].
    + now apply enqueue_sorted.
    + eapply Permutation_Forall; [symmetry; apply enqueue_perm|].
      constructor; [reflexivity | assumption].
    + repeat split; [assumption..|].
      rewrite Hp, enqueue_perm. apply Permutation_cons_app. reflexivity.
Qed.

Lemma queue_leaves_of_leaves (f : ascii -> Z) (l : list ascii) :
  queue_leaves (map (fun ch => (f ch, new_leaf ch)) l) = l.
Proof.
  unfold queue_leaves. induction l as [|ch l IH]; simpl; [reflexivity|].
  now rewrite IH.
Qed.

Lemma least_of_head (e : Z * HuffmanNode) (q : PriorityQueue HuffmanNode) :
  queue_sorted (e :: q) -> least_of (e :: q) e q.
Proof.
  intros Hs. inversion Hs as [|? ? Hq Hall]; subst. split.
  - exists [], q. auto.
  - constructor; [lia | assumption].
Qed.

(** From a sorted queue of strictly binary trees that is not empty, the
    [while] loop ends with a queue of one tree, reached as the spec
    says. *)
Lemma combine_all_spec (fuel : nat) :
  forall q,
    q <> [] -> size q <= S fuel ->
    queue_sorted q ->
    Forall (fun e => strictly_binary (snd e) = true) q ->
    exists p t,
      combine_all fuel q = Ret [(p, t)]
      /\ strictly_binary t = true
      /\ Permutation (leaves t) (queue_leaves q)
      /\ huffman_spec q t.
Proof.
  induction fuel as [|fuel IH]; intros q Hne Hsize Hs Hb.
  - destruct q as [|[p t] [|e q]]; [congruence| |simpl in Hsize; lia].
    exists p, t. inversion Hb; subst. unfold queue_leaves. simpl.
    rewrite app_nil_r. repeat split; auto. constructor.
  - destruct q as [|[p1 t1] [|[p2 t2] rest]]; [congruence| |].
    + exists p1, t1. inversion Hb; subst. unfold queue_leaves. simpl.
      rewrite app_nil_r. repeat split; auto. constructor.
    + inversion Hb as [|? ? Hb1 Hb']; subst.
      inversion Hb' as [|? ? Hb2 Hbr]; subst. simpl in Hb1, Hb2.
      inversion Hs as [|? ? Hs' Hall1]; subst.
      inversion Hs' as [|? ? Hsr Hall2]; subst.
      destruct (strictly_binary_new_interior t1 t2 Hb1 Hb2) as [Hbn [_ Hln]].
      destruct (IH (enqueue (new_interior t1 t2) (p1 + p2)%Z rest))
        as [p [t [Hrun [Hbt [Hperm Hspec]]]]].
      * destruct rest as [|[? ?] ?]; simpl; [discriminate|].
        destruct (_ <? _)%Z; discriminate.
      * rewrite enqueue_size. unfold size in *. simpl in Hsize. lia.
      * now apply enqueue_sorted.
      * eapply Permutation_Forall; [symmetry; apply enqueue_perm|].
        constructor; assumption.
      * exists p, t. repeat split.
        -- cbn [combine_all size length Nat.eqb].
           cbn [combine_two peekPriority dequeue bind]. exact Hrun.
        -- assumption.
        -- rewrite Hperm, (queue_leaves_perm (enqueue_perm _ _ _)).
           unfold queue_leaves. cbn [flat_map snd].
           rewrite Hln, <- app_assoc. reflexivity.
        -- eapply spec_combine; [| |exact Hspec].
           ++ now apply least_of_head.
           ++ now apply least_of_head.
Qed.

Lemma buildEncodingTree_builds (freqTable : Map ascii Z) :
  freqTable <> [] ->
  exists tree,
    buildEncodingTree freqTable = Ret tree
    /\ Permutation (enqueue_leaves freqTable)
         (map (fun ch => (subscript 0%Z freqTable ch, new_leaf ch))
              (keys freqTable))
    /\ huffman_spec (enqueue_leaves freqTable) tree
    /\ strictly_binary tree = true
    /\ Permutation (leaves tree) (keys freqTable).
Proof.
  intros Hne. unfold buildEncodingTree.
  destruct (@enqueue_leaves_fold freqTable (keys freqTable) [])
    as [Hs [Hb Hp]]; [constructor | constructor |].
  fold (enqueue_leaves freqTable) in Hs, Hb, Hp. simpl in Hp.
  destruct (@combine_all_spec (S (size (enqueue_leaves freqTable)))
              (enqueue_leaves freqTable))
    as [p [t [Hrun [Hbt [Hperm Hspec]]]]]; try assumption.
  - intros E. rewrite E in Hp. apply Permutation_nil in Hp.
    destruct freqTable; [congruence | discriminate].
  - lia.
  - exists t. rewrite Hrun. cbn [bind dequeue]. repeat split; try assumption.
    rewrite Hperm, (queue_leaves_perm Hp). now rewrite queue_leaves_of_leaves.
Qed.

(** The fuel of the loop is never used up: the builder returns or
    throws. *)
Lemma buildEncodingTree_total (freqTable : Map ascii Z) :
  buildEncodingTree freqTable <> Timeout.
Proof.
  destruct freqTable as [|e m]; [discriminate|].
  destruct (@buildEncodingTree_builds (e :: m)) as [tree [-> _]]; discriminate.
Qed.

(** C8: for a table that is not empty, the builder starts from one leaf
    per symbol under its frequency, then takes out the two nodes of least
    priority, puts back their combination under the sum of the two
    priorities, and stops when one node is left; the tree it returns is
    strictly binary and its leaves are the symbols of the table, each
    once. *)
Theorem buildEncodingTree_spec (freqTable : Map ascii Z) :
  freqTable <> [] ->
  exists tree,
    buildEncodingTree freqTable = Ret tree
    /\ Permutation (enqueue_leaves freqTable)
         (map (fun ch => (subscript 0%Z freqTable ch, new_leaf ch))
              (keys freqTable))
    /\ huffman_spec (enqueue_leaves freqTable) tree
    /\ strictly_binary tree = true
    /\ Permutation (leaves tree) (keys freqTable).
Proof. apply buildEncodingTree_builds. Qed.

(** ** Headers that are not the header of a tree *)

(** With more fuel than the string is long, the parser returns or
    throws, and what it leaves is shorter than what it was given. *)
Lemma helper_consumes (fuel : nat) :
  forall str, length str < fuel ->
    match recreateTreeFromHeaderHelper fuel str with
    | Ret (_, rest) => length rest < length str
    | Throw _ => True
    | Timeout => False
    end.
Proof.
  induction fuel as [|fuel IH]; intros str Hlen; [lia|].
  cbn [recreateTreeFromHeaderHelper].
  destruct (startsWith str "."%char) eqn:Edot.
  - unfold substr. destruct (Nat.leb 2 (length str)) eqn:E2; cbn [bind]; [|exact I].
    apply Nat.leb_le in E2. rewrite length_skipn. lia.
  - unfold substr at 1. destruct (Nat.leb 1 (length str)) eqn:E1; cbn [bind]; [|exact I].
    apply Nat.leb_le in E1.
    pose proof (IH (skipn 1 str)) as H1. rewrite length_skipn in H1.
    destruct (recreateTreeFromHeaderHelper fuel (skipn 1 str))
      as [[zero str2]| |]; cbn [bind]; [|exact I|apply H1; lia].
    pose proof (IH str2) as H2.
    destruct (recreateTreeFromHeaderHelper fuel str2)
      as [[one str3]| |]; cbn [bind]; [|exact I|apply H2; lia].
    unfold substr. destruct (Nat.leb 1 (length str3)); cbn [bind]; [|exact I].
    rewrite length_skipn. specialize (H1 ltac:(lia)). specialize (H2 ltac:(lia)). lia.
Qed.

(** More fuel does not change a call that has returned or thrown. *)
Lemma helper_more_fuel (fuel : nat) :
  forall str fuel', fuel <= fuel' ->
    recreateTreeFromHeaderHelper fuel str <> Timeout ->
    recreateTreeFromHeaderHelper fuel' str = recreateTreeFromHeaderHelper fuel str.
Proof.
  induction fuel as [|fuel IH]; intros str fuel' Hle Hrun;
    [simpl in Hrun; congruence|].
  destruct fuel' as [|fuel']; [lia|].
  cbn [recreateTreeFromHeaderHelper] in *.
  destruct (startsWith str "."%char); [reflexivity|].
  destruct (substr 1 str) as [str1| |]; cbn [bind] in *; try reflexivity.
  assert (H1 : recreateTreeFromHeaderHelper fuel str1 <> Timeout).
  { intros E. rewrite E in Hrun. now apply Hrun. }
  rewrite (IH str1 fuel') by (lia || assumption).
  destruct (recreateTreeFromHeaderHelper fuel str1)
    as [[zero str2]| |]; cbn [bind] in *; try reflexivity.
  assert (H2 : recreateTreeFromHeaderHelper fuel str2 <> Timeout).
  { intros E. rewrite E in Hrun. now apply Hrun. }
  rewrite (IH str2 fuel') by (lia || assumption). reflexivity.
Qed.

(** A header cut short makes the parser throw. *)
Lemma helper_truncated (t : HuffmanNode) :
  strictly_binary t = true ->
  forall fuel s s', height t <= fuel ->
    flattenTreeToHeader t = s ++ s' -> s' <> [] ->
    recreateTreeFromHeaderHelper fuel s = Throw out_of_range.
Proof.
  induction t as [|ch zero IHz one IHo]; [discriminate|].
  intros Hsb fuel s s' Hfuel Hcut Hs'.
  destruct fuel as [|fuel]; [simpl in Hfuel; lia|].
  cbn [height] in Hfuel. cbn [flattenTreeToHeader] in Hcut.
  destruct (isLeaf (Node ch zero one)) eqn:E.
  - destruct s as [|x [|y s]]; simpl in Hcut.
    + reflexivity.
    + injection Hcut as <- _. reflexivity.
    + injection Hcut as _ _ Hnil. symmetry in Hnil.
      apply app_eq_nil in Hnil. destruct Hnil. congruence.
  - destruct (strictly_binary_interior _ _ _ Hsb E) as [Hz Ho].
    destruct s as [|x s1]; [reflexivity|].
    simpl in Hcut. injection Hcut as <- Hcut.
    cbn [recreateTreeFromHeaderHelper]. rewrite startsWith_dot.
    cbn [Ascii.eqb Bool.eqb andb]. cbn [substr length Nat.leb skipn bind].
    assert (Hend : forall l, l = flattenTreeToHeader one ->
              ' (one0, str3) <- recreateTreeFromHeaderHelper fuel l;;
              str4 <- substr 1 str3;; Ret (new_interior (relabel zero) one0, str4)
              = Throw out_of_range).
    { intros l ->. rewrite <- (app_nil_r (flattenTreeToHeader one)).
      rewrite (helper_flatten one Ho) by lia. reflexivity. }
    apply app_eq_app in Hcut. destruct Hcut as [l [[Hl1 Hl2]|[Hl1 Hl2]]].
    + destruct l as [|x l].
      * rewrite app_nil_r in Hl1. subst s1.
        rewrite <- (app_nil_r (flattenTreeToHeader zero)).
        rewrite (helper_flatten zero Hz) by lia. cbn [bind].
        rewrite (IHo Ho fuel [] (flattenTreeToHeader one)); try reflexivity; try lia.
        intros E0. pose proof (height_flatten one Ho) as Hh.
        rewrite E0 in Hh. simpl in Hh. lia.
      * rewrite (IHz Hz fuel s1 (x :: l)); try reflexivity; try lia;
          [assumption | discriminate].
    + subst s1. rewrite (helper_flatten zero Hz) by lia. cbn [bind].
      apply app_eq_app in Hl2. destruct Hl2 as [l2 [[Hm1 Hm2]|[Hm1 Hm2]]].
      * destruct l2 as [|x l2].
        -- rewrite app_nil_r in Hm1. now apply Hend.
        -- rewrite (IHo Ho fuel l (x :: l2)); try reflexivity; try lia;
             [assumption | discriminate].
      * destruct l2 as [|x l2].
        -- rewrite app_nil_r in Hm1. now apply Hend.
        -- simpl in Hm2. injection Hm2 as _ Hnil. symmetry in Hnil.
           apply app_eq_nil in Hnil. destruct Hnil. congruence.
Qed.

Lemma recreate_truncated (T : HuffmanNode) (s s' : std_string) :
  strictly_binary T = true ->
  flattenTreeToHeader T = s ++ s' -> s' <> [] ->
  recreateTreeFromHeader s = Throw out_of_range.
Proof.
  intros Hsb Hcut Hs'. unfold recreateTreeFromHeader.
  pose proof (@helper_consumes (S (length s)) s ltac:(lia)) as Hrun.
  pose proof (@helper_more_fuel (S (length s)) s
                (Nat.max (S (length s)) (height T)) ltac:(lia)) as Hmore.
  rewrite (@helper_truncated T Hsb (Nat.max (S (length s)) (height T)) s s'
             ltac:(lia) Hcut Hs') in Hmore.
  destruct (recreateTreeFromHeaderHelper (S (length s)) s) as [[t rest]| |];
    [| |contradiction].
  - discriminate Hmore. discriminate.
  - rewrite <- Hmore by discriminate. reflexivity.
Qed.

(** The fuel of the parser is never used up: it returns or throws. *)
Lemma recreateTreeFromHeader_total (str : std_string) :
  recreateTreeFromHeader str <> Timeout.
Proof.
  unfold recreateTreeFromHeader.
  pose proof (@helper_consumes (S (length str)) str ltac:(lia)) as Hrun.
  destruct (recreateTreeFromHeaderHelper (S (length str)) str) as [[t rest]| |];
    [discriminate | discriminate | contradiction].
Qed.

Lemma recreate_trailing (T : HuffmanNode) (trailing : std_string) :
  strictly_binary T = true ->
  recreateTreeFromHeader (flattenTreeToHeader T ++ trailing) = Ret (relabel T).
Proof.
  intros Hsb. unfold recreateTreeFromHeader.
  rewrite helper_flatten; [reflexivity|assumption|].
  pose proof (height_flatten T Hsb). rewrite length_app. lia.
Qed.

Lemma helper_any_brackets (zero one : HuffmanNode) (opening closing : ascii)
  (fuel : nat) (rest : std_string) :
  strictly_binary zero = true -> strictly_binary one = true ->
  height zero <= fuel -> height one <= fuel ->
  opening <> "."%char ->
  recreateTreeFromHeaderHelper (S fuel)
    (opening :: flattenTreeToHeader zero
       ++ flattenTreeToHeader one ++ closing :: rest)
  = Ret (new_interior (relabel zero) (relabel one), rest).
Proof.
  intros Hz Ho Hfz Hfo Hopen.
  cbn [recreateTreeFromHeaderHelper]. rewrite startsWith_dot.
  apply Ascii.eqb_neq in Hopen. rewrite Hopen.
  cbn [substr length Nat.leb skipn bind].
  rewrite (helper_flatten zero Hz) by assumption. cbn [bind].
  rewrite (helper_flatten one Ho) by assumption. reflexivity.
Qed.

Lemma recreate_any_brackets (zero one : HuffmanNode) (opening closing : ascii) :
  strictly_binary zero = true -> strictly_binary one = true ->
  opening <> "."%char ->
  recreateTreeFromHeader
    (opening :: flattenTreeToHeader zero ++ flattenTreeToHeader one ++ [closing])
  = Ret (new_interior (relabel zero) (relabel one)).
Proof.
  intros Hz Ho Hopen. unfold recreateTreeFromHeader.
  pose proof (height_flatten zero Hz). pose proof (height_flatten one Ho).
  rewrite helper_any_brackets; try assumption; try reflexivity;
    cbn [length]; rewrite !length_app; lia.
Qed.

(** C5, as the code has it: a header of a tree that is cut short (which
    covers a missing closing marker) makes [recreateTreeFromHeader] throw
    [std::out_of_range] at once; what follows a complete tree is ignored,
    and the characters in the places of the two brackets are not
    looked at beyond the opening one not being a period. *)
Theorem recreateTreeFromHeader_malformed (T : HuffmanNode) :
  strictly_binary T = true ->
  (forall s s', flattenTreeToHeader T = s ++ s' -> s' <> [] ->
     recreateTreeFromHeader s = Throw out_of_range)
  /\ (forall trailing,
        recreateTreeFromHeader (flattenTreeToHeader T ++ trailing)
        = Ret (relabel T))
  /\ (forall T' opening closing,
        strictly_binary T' = true -> opening <> "."%char ->
        recreateTreeFromHeader
          (opening :: flattenTreeToHeader T ++ flattenTreeToHeader T' ++ [closing])
        = Ret (new_interior (relabel T) (relabel T'))).
Proof.
  intros Hsb. repeat split.
  - intros s s'. now apply recreate_truncated.
  - intros trailing. now apply recreate_trailing.
  - intros T' opening closing HT' Hopen. now apply recreate_any_brackets.
Qed.

(** ** The decoding map and the decoding loop *)

Lemma keys_gatherLeaves (t : HuffmanNode) :
  forall map code c,
    In c (keys (gatherLeaves t map code)) <-> In c (keys map) \/ In c (leaves t).
Proof.
  induction t as [|ch zero IHz one IHo]; intros map code c.
  - simpl. tauto.
  - cbn [gatherLeaves leaves]. destruct (isLeaf (Node ch zero one)).
    + rewrite (keys_put char_less_same). simpl. intuition.
    + rewrite IHo, IHz, in_app_iff. tauto.
Qed.

(** The keys of the inverted map are values of the map. *)
Lemma invert_fold_contains (f : ascii -> std_string) (l : list ascii) :
  forall (cm : Map std_string ascii) w,
    containsKey w (fold_left (fun characterMap ch => put (f ch) ch characterMap) l cm)
    = true ->
    containsKey w cm = true \/ exists ch, In ch l /\ f ch = w.
Proof.
  induction l as [|ch l IH]; intros cm w Hc; simpl in Hc; [auto|].
  apply IH in Hc. destruct Hc as [Hc|[ch' [Hin Hf]]].
  - unfold containsKey in *.
    destruct (get_put string_less_irrefl string_less_same (f ch) w ch cm)
      as [[-> Hg]|[Hne Hg]].
    + right. exists ch. simpl. auto.
    + rewrite Hg in Hc. auto.
  - right. exists ch'. simpl. auto.
Qed.

(** Where the values of the map are pairwise distinct, the inverted map
    takes each value back to its key. *)
Lemma invert_fold_get (f : ascii -> std_string) (c : ascii) (l : list ascii) :
  (forall x, In x l -> f x = f c -> x = c) ->
  forall cm : Map std_string ascii,
    In c l \/ get (f c) cm = Some c ->
    get (f c) (fold_left (fun characterMap ch => put (f ch) ch characterMap) l cm)
    = Some c.
Proof.
  induction l as [|ch l IH]; intros Hinj cm Hc; simpl.
  - destruct Hc as [[]|Hc]. exact Hc.
  - apply IH.
    + intros x Hx. apply Hinj. simpl. auto.
    + destruct (ascii_dec ch c) as [->|Hne].
      * right. apply (get_put_same string_less_irrefl).
      * destruct Hc as [[Hc|Hc]|Hc]; [congruence|auto|].
        right. rewrite (get_put_other string_less_same); [exact Hc|].
        intros E. apply Hne. apply Hinj; simpl; auto.
Qed.

Lemma subscript_get {K V : Type} `{Less K} (d : V) (m : Map K V) (k : K) (v : V) :
  get k m = Some v -> subscript d m k = v.
Proof. unfold subscript. now intros ->. Qed.

(** A key of the decoding map is a path to a leaf of the tree. *)
Lemma characterMap_key (tree : HuffmanNode) (w : std_string) :
  containsKey w (invert_map (buildEncodingMap tree)) = true ->
  exists c, path_to tree w c.
Proof.
  unfold invert_map. intros Hc.
  apply invert_fold_contains in Hc. destruct Hc as [Hc|[ch [Hin Hf]]].
  - discriminate.
  - destruct (get_key char_less_irrefl _ _ Hin) as [v Hv].
    rewrite (subscript_get _ _ _ Hv) in Hf. subst v.
    exists ch. now apply buildEncodingMap_path.
Qed.

Lemma characterMap_no_empty_key (tree : HuffmanNode) :
  isLeaf tree = false ->
  containsKey [] (invert_map (buildEncodingMap tree)) = false.
Proof.
  intros Hleaf.
  destruct (containsKey [] (invert_map (buildEncodingMap tree))) eqn:E;
    [|reflexivity].
  apply characterMap_key in E. destruct E as [c Hp].
  exfalso. now apply (path_to_interior Hp).
Qed.

Lemma read_code_unfold (cm : Map std_string ascii) (bits : std_string)
  (input : list bool) :
  read_code cm bits input
  = if containsKey bits cm then Matched bits input
    else match input with
         | [] => EndOfStream bits
         | bit :: rest =>
             read_code cm (bits ++ integerToString (Z.b2z bit)) rest
         end.
Proof. destruct input; reflexivity. Qed.

(** A match leaves less input than there was, unless the accumulator
    matched before a bit was read. *)
Lemma read_code_progress (cm : Map std_string ascii) (input : list bool) :
  forall acc bits rest,
    read_code cm acc input = Matched bits rest ->
    (containsKey acc cm = true /\ bits = acc /\ rest = input)
    \/ length rest < length input.
Proof.
  induction input as [|b input IH]; intros acc bits rest;
    rewrite read_code_unfold; destruct (containsKey acc cm) eqn:E.
  - intros [= <- <-]. auto.
  - discriminate.
  - intros [= <- <-]. auto.
  - intros Hr. apply IH in Hr. simpl. right.
    destruct Hr as [[_ [_ ->]]|Hr]; lia.
Qed.

(** When the empty string is not a key, the loop returns once the bits
    have run out, without an error, whatever the accumulator holds. *)
Lemma decode_loop_returns (cm : Map std_string ascii) :
  containsKey [] cm = false ->
  forall fuel input output,
    length input < fuel ->
    exists out bits, decode_loop fuel cm input output = (out, Ret bits).
Proof.
  intros Hempty. induction fuel as [|fuel IH]; intros input output Hlen; [lia|].
  cbn [decode_loop].
  destruct (read_code cm [] input) as [bits rest|bits] eqn:Er.
  - apply read_code_progress in Er. destruct Er as [[Hc _]|Hr].
    + congruence.
    + apply IH. lia.
  - eauto.
Qed.

(** When the empty string is a key, every trip through the loop matches
    at once, puts the symbol of the empty string and reads nothing. *)
Lemma decode_loop_spins (cm : Map std_string ascii) (c : ascii) :
  get [] cm = Some c ->
  forall fuel input output,
    decode_loop fuel cm input output = (output ++ repeat c fuel, Timeout).
Proof.
  intros Hg. induction fuel as [|fuel IH]; intros input output.
  - simpl. now rewrite app_nil_r.
  - cbn [decode_loop]. rewrite read_code_unfold.
    unfold containsKey. rewrite Hg. rewrite IH.
    rewrite (subscript_get _ _ _ Hg). simpl. now rewrite <- app_assoc.
Qed.

Lemma single_leaf_header (c : ascii) :
  recreateTreeFromHeader ["."%char; c] = Ret (new_leaf c).
Proof. reflexivity. Qed.

Lemma single_leaf_maps (c : ascii) :
  buildEncodingMap (new_leaf c) = [(c, [])]
  /\ invert_map (buildEncodingMap (new_leaf c)) = [([], c)].
Proof.
  assert (E : buildEncodingMap (new_leaf c) = [(c, [])]) by reflexivity.
  split; [exact E|]. rewrite E. unfold invert_map. simpl.
  rewrite (subscript_get (K:=ascii) [] [(c, [])] c (v:=[])); [reflexivity|].
  simpl. now rewrite char_less_irrefl.
Qed.

Lemma decompress_single_leaf (c : ascii) (bits : list bool)
  (output : std_string) (fuel : nat) :
  decompress fuel {| file_header := ["."%char; c]; file_bits := bits |} output
  = (output ++ repeat c fuel, Timeout).
Proof.
  unfold decompress, readHeader. cbn [file_header file_bits].
  rewrite single_leaf_header.
  destruct (single_leaf_maps c) as [_ ->].
  now apply decode_loop_spins.
Qed.

Lemma decompress_returns (input : HuffmanFile) (output : std_string)
  (tree : HuffmanNode) (fuel : nat) :
  recreateTreeFromHeader (readHeader input) = Ret tree ->
  isLeaf tree = false ->
  length (file_bits input) < fuel ->
  exists out bits, decompress fuel input output = (out, Ret bits).
Proof.
  intros Htree Hleaf Hlen. unfold decompress. rewrite Htree.
  apply decode_loop_returns; [|assumption].
  now apply characterMap_no_empty_key.
Qed.

(** ** Input of a single symbol *)

Lemma count_chars_repeat (c : ascii) (k : nat) :
  forall n, exists n', count_chars (repeat c k) [(c, n)] = [(c, n')].
Proof.
  induction k as [|k IH]; intros n.
  - exists n. reflexivity.
  - cbn [repeat count_chars put]. rewrite char_less_irrefl. apply IH.
Qed.

Lemma count_chars_repeat_exact (c : ascii) (k : nat) :
  forall n, (0 <= n)%Z -> (n + Z.of_nat k <= INT_MAX)%Z ->
    count_chars (repeat c k) [(c, n)] = [(c, (n + Z.of_nat k)%Z)].
Proof.
  induction k as [|k IH]; intros n Hn Hmax.
  - simpl. now rewrite Z.add_0_r.
  - cbn [repeat count_chars].
    assert (Hg : get c [(c, n)] = Some n) by (simpl; now rewrite char_less_irrefl).
    rewrite (subscript_get _ _ _ Hg). cbn [put]. rewrite char_less_irrefl.
    rewrite int_wrap_exact by (unfold INT_MAX in *; lia).
    rewrite IH by lia. do 2 f_equal. lia.
Qed.

Lemma count_chars_single (c : ascii) (k : nat) :
  exists n, count_chars (repeat c (S k)) [] = [(c, n)].
Proof.
  cbn [repeat count_chars put]. apply count_chars_repeat.
Qed.

Lemma buildEncodingTree_single (c : ascii) (n : Z) :
  buildEncodingTree [(c, n)] = Ret (new_leaf c).
Proof. reflexivity. Qed.

Lemma write_codes_empty_code (c : ascii) (k : nat) (output : HuffmanFile) :
  write_codes [(c, [])] (repeat c k) output = output.
Proof.
  induction k as [|k IH]; [reflexivity|].
  cbn [repeat write_codes].
  assert (Hg : get c [(c, @nil ascii)] = Some [])
    by (simpl; now rewrite char_less_irrefl).
  rewrite (subscript_get _ _ _ Hg). exact IH.
Qed.

Lemma compress_single (c : ascii) (k : nat) :
  compress (istream_of (repeat c (S k))) empty_file
  = Ret ({| buffer := repeat c (S k); unread := [] |},
         {| file_header := ["."%char; c]; file_bits := [] |}).
Proof.
  unfold compress, buildFrequencyTable, istream_of. cbn [unread buffer].
  destruct (count_chars_single c k) as [n ->].
  rewrite buildEncodingTree_single. cbn [bind].
  destruct (single_leaf_maps c) as [-> _].
  cbn [rewindStream buffer unread]. rewrite write_codes_empty_code.
  reflexivity.
Qed.

(** C10: the tree built from a table of one symbol is a single leaf, the
    encoding map of that leaf gives the symbol the empty code, and
    [compress] of an input that repeats one symbol writes the header of
    the leaf and no bit. *)
Theorem single_symbol_empty_code (c : ascii) (n : Z) (k : nat) :
  buildEncodingTree [(c, n)] = Ret (new_leaf c)
  /\ buildEncodingMap (new_leaf c) = [(c, [])]
  /\ compress (istream_of (repeat c (S k))) empty_file
     = Ret ({| buffer := repeat c (S k); unread := [] |},
            {| file_header := ["."%char; c]; file_bits := [] |}).
Proof.
  split; [apply buildEncodingTree_single|].
  split; [apply single_leaf_maps | apply compress_single].
Qed.

(** C4, on the input "zzzz": the table has the one symbol "z", the tree
    is the leaf of "z", the code of "z" is empty, [compress] writes the
    header ".z" and no bit, and [decompress] of that file has not
    returned after any number of trips, each of which puts one more "z"
    on the output. *)
Theorem single_symbol_zzzz :
  fst (buildFrequencyTable (istream_of (lit "zzzz"))) = [("z"%char, 4%Z)]
  /\ buildEncodingTree [("z"%char, 4%Z)] = Ret (new_leaf "z"%char)
  /\ get "z"%char (buildEncodingMap (new_leaf "z"%char)) = Some []
  /\ compress (istream_of (lit "zzzz")) empty_file
     = Ret ({| buffer := lit "zzzz"; unread := [] |},
            {| file_header := lit ".z"; file_bits := [] |})
  /\ forall fuel,
       decompress fuel {| file_header := lit ".z"; file_bits := [] |} []
       = (repeat "z"%char fuel, Timeout).
Proof.
  split; [apply (@count_chars_repeat_exact "z"%char 3 1%Z);
          unfold INT_MAX; simpl; lia|].
  split; [apply buildEncodingTree_single|].
  split; [destruct (single_leaf_maps "z"%char) as [-> _]; simpl;
          now rewrite char_less_irrefl|].
  split; [apply (compress_single "z"%char 3)|].
  intros fuel. apply (decompress_single_leaf "z"%char [] []).
Qed.

(** ** Round trip *)

Lemma put_sorted {V : Type} (k : ascii) (v : V) (m : Map ascii V) :
  keys_sorted m -> keys_sorted (put k v m).
Proof.
  unfold keys_sorted. induction m as [|[k' v'] m IH]; intros Hs.
  - simpl. repeat constructor.
  - cbn [put]. cbn [keys map fst] in Hs.
    inversion Hs as [|? ? Hm Hall]; subst.
    unfold less at 1, char_Less at 1.
    destruct (char_value k <? char_value k')%Z eqn:E1.
    + cbn [keys map fst]. constructor; [exact Hs|].
      constructor; [lia|].
      eapply Forall_impl; [|exact Hall]. simpl. intros; lia.
    + unfold less at 1, char_Less at 1.
      destruct (char_value k' <? char_value k)%Z eqn:E2.
      * cbn [keys map fst]. constructor; [now apply IH|].
        apply Forall_forall. intros x Hx.
        apply (keys_put char_less_same) in Hx. destruct Hx as [->|Hx]; [lia|].
        rewrite Forall_forall in Hall. now apply Hall.
      * assert (k = k') by (apply char_value_inj; lia). subst k'.
        cbn [keys map fst]. now constructor.
Qed.

Lemma keys_sorted_NoDup {V : Type} (m : Map ascii V) :
  keys_sorted m -> NoDup (keys m).
Proof.
  unfold keys_sorted. induction 1 as [|x l Hs IH Hall]; constructor; [|exact IH].
  intros Hin. rewrite Forall_forall in Hall. specialize (Hall x Hin). lia.
Qed.

Lemma count_chars_sorted (s : std_string) :
  forall m, keys_sorted m -> keys_sorted (count_chars s m).
Proof.
  induction s as [|ch s IH]; intros m Hm; simpl; [exact Hm|].
  apply IH. now apply put_sorted.
Qed.

Lemma keys_count_chars (s : std_string) :
  forall m c, In c (keys (count_chars s m)) <-> In c s \/ In c (keys m).
Proof.
  induction s as [|ch s IH]; intros m c; simpl; [tauto|].
  rewrite IH, (keys_put char_less_same). intuition congruence.
Qed.

Lemma isLeaf_relabel (t : HuffmanNode) : isLeaf (relabel t) = isLeaf t.
Proof.
  destruct t as [|ch zero one]; [reflexivity|].
  cbn [relabel]. destruct (isLeaf (Node ch zero one)) eqn:E; [reflexivity|].
  destruct zero as [|c1 z1 o1].
  - destruct one as [|c2 z2 o2]; [discriminate|].
    cbn [relabel]. destruct (isLeaf (Node c2 z2 o2)); reflexivity.
  - cbn [relabel]. destruct (isLeaf (Node c1 z1 o1)); reflexivity.
Qed.

Lemma gatherLeaves_relabel (t : HuffmanNode) :
  forall map code, gatherLeaves (relabel t) map code = gatherLeaves t map code.
Proof.
  induction t as [|ch zero IHz one IHo]; intros map code; [reflexivity|].
  pose proof (isLeaf_relabel (Node ch zero one)) as Hl.
  cbn [relabel] in *. destruct (isLeaf (Node ch zero one)) eqn:E.
  - destruct (isLeaf_true _ E) as [c Hc]. injection Hc as <- -> ->. reflexivity.
  - unfold new_interior in *. cbn [gatherLeaves]. rewrite Hl, E, IHz, IHo.
    reflexivity.
Qed.

Lemma write_code_file (w : std_string) :
  forall output,
    write_code w output
    = {| file_header := file_header output;
         file_bits := file_bits output
                      ++ map bit_of w |}.
Proof.
  unfold write_code. induction w as [|c w IH]; intros output; simpl.
  - rewrite app_nil_r. now destruct output.
  - rewrite IH. unfold writeBit. simpl. now rewrite <- app_assoc.
Qed.

Lemma write_codes_file (binaryMap : Map ascii std_string) (s : std_string) :
  forall output,
    write_codes binaryMap s output
    = {| file_header := file_header output;
         file_bits := file_bits output ++ payload binaryMap s |}.
Proof.
  unfold payload. induction s as [|ch s IH]; intros output; simpl.
  - rewrite app_nil_r. now destruct output.
  - rewrite IH, write_code_file. simpl. now rewrite <- app_assoc.
Qed.

Lemma bit_of_digit (d : ascii) :
  d = "0"%char \/ d = "1"%char ->
  integerToString (Z.b2z (bit_of d)) = [d].
Proof. intros [->| ->]; reflexivity. Qed.

(** Reading the bits of a key of which no proper prefix is a key stops
    at that key. *)
Lemma read_code_key (cm : Map std_string ascii) (p2 : std_string) :
  forall acc rest,
    Forall (fun d => d = "0"%char \/ d = "1"%char) p2 ->
    (forall q r, acc ++ p2 = q ++ r -> r <> [] -> containsKey q cm = false) ->
    containsKey (acc ++ p2) cm = true ->
    read_code cm acc
      (map bit_of p2 ++ rest)
    = Matched (acc ++ p2) rest.
Proof.
  induction p2 as [|d p2 IH]; intros acc rest Hbits Hfree Hkey;
    rewrite read_code_unfold.
  - rewrite app_nil_r in *. simpl. now rewrite Hkey.
  - rewrite (Hfree acc (d :: p2)) by (reflexivity || discriminate).
    inversion Hbits as [|? ? Hd Hbits']; subst.
    cbn [map app]. rewrite (bit_of_digit Hd).
    replace (acc ++ d :: p2) with ((acc ++ [d]) ++ p2)
      by (now rewrite <- app_assoc).
    apply IH; [assumption| |].
    + intros q r E. apply Hfree. now rewrite <- E, <- app_assoc.
    + now rewrite <- app_assoc.
Qed.

Lemma payload_cons (binaryMap : Map ascii std_string) (c : ascii) (s : std_string) :
  payload binaryMap (c :: s) = payload binaryMap [c] ++ payload binaryMap s.
Proof. unfold payload. simpl. now rewrite app_nil_r. Qed.

Section Decoding.
Variable tree : HuffmanNode.
Hypothesis tree_NoDup : NoDup (leaves tree).

Lemma binaryMap_code (c : ascii) :
  In c (leaves tree) ->
  exists p, path_to tree p c /\ get c (buildEncodingMap tree) = Some p.
Proof.
  intros Hin. destruct (leaves_path_to _ _ Hin) as [p Hp].
  exists p. split; [exact Hp|].
  unfold buildEncodingMap. now rewrite (gatherLeaves_path tree_NoDup _ _ Hp).
Qed.

Lemma characterMap_code (c : ascii) (p : std_string) :
  path_to tree p c ->
  get p (invert_map (buildEncodingMap tree)) = Some c.
Proof.
  intros Hp.
  assert (Hg : get c (buildEncodingMap tree) = Some p).
  { unfold buildEncodingMap. now rewrite (gatherLeaves_path tree_NoDup _ _ Hp). }
  unfold invert_map.
  rewrite <- (subscript_get [] _ _ Hg) at 1.
  apply invert_fold_get.
  - intros x Hx Hf.
    destruct (get_key char_less_irrefl _ _ Hx) as [w Hw].
    rewrite (subscript_get _ _ _ Hw), (subscript_get _ _ _ Hg) in Hf. subst w.
    apply buildEncodingMap_path in Hw.
    rewrite <- (app_nil_r p) in Hw.
    now destruct (@path_to_extend _ _ _ Hp _ _ Hw).
  - left. now apply (get_some_key char_less_same _ _ Hg).
Qed.

Lemma read_code_of_symbol (c : ascii) (rest : list bool) :
  In c (leaves tree) ->
  exists p,
    read_code (invert_map (buildEncodingMap tree)) []
      (payload (buildEncodingMap tree) [c] ++ rest)
    = Matched p rest
    /\ subscript zero (invert_map (buildEncodingMap tree)) p = c.
Proof.
  intros Hin. destruct (binaryMap_code c Hin) as [p [Hp Hg]].
  exists p. unfold payload. cbn [flat_map]. rewrite app_nil_r.
  rewrite (subscript_get _ _ _ Hg).
  pose proof (characterMap_code Hp) as Hc.
  split; [|now apply subscript_get].
  apply (@read_code_key _ p [] rest).
  - now apply (path_to_bits Hp).
  - intros q r E Hr. simpl in E.
    destruct (containsKey q (invert_map (buildEncodingMap tree))) eqn:Eq;
      [|reflexivity].
    apply characterMap_key in Eq. destruct Eq as [c' Hq].
    rewrite E in Hp. destruct (@path_to_extend _ _ _ Hq _ _ Hp). congruence.
  - simpl. unfold containsKey. now rewrite Hc.
Qed.

Hypothesis tree_interior : isLeaf tree = false.

Lemma decode_loop_payload (s : std_string) :
  Forall (fun c => In c (leaves tree)) s ->
  forall fuel output,
    length s < fuel ->
    decode_loop fuel (invert_map (buildEncodingMap tree))
      (payload (buildEncodingMap tree) s) output
    = (output ++ s, Ret []).
Proof.
  induction 1 as [|c s Hc Hs IH]; intros fuel output Hlen;
    (destruct fuel as [|fuel]; [simpl in Hlen; lia|]); cbn [decode_loop].
  - simpl. rewrite (characterMap_no_empty_key _ tree_interior).
    now rewrite app_nil_r.
  - rewrite payload_cons.
    destruct (read_code_of_symbol c (payload (buildEncodingMap tree) s) Hc)
      as [p [-> ->]].
    rewrite IH by (simpl in Hlen; lia). now rewrite <- app_assoc.
Qed.

End Decoding.

Lemma decode_loop_payload_then (tree : HuffmanNode) (s : std_string) :
  NoDup (leaves tree) ->
  Forall (fun c => In c (leaves tree)) s ->
  forall fuel output tail,
    decode_loop (length s + fuel) (invert_map (buildEncodingMap tree))
      (payload (buildEncodingMap tree) s ++ tail) output
    = decode_loop fuel (invert_map (buildEncodingMap tree)) tail (output ++ s).
Proof.
  intros Hnd. induction 1 as [|c s Hc Hs IH]; intros fuel output tail.
  - simpl. now rewrite app_nil_r.
  - cbn [length Nat.add decode_loop]. rewrite payload_cons, <- app_assoc.
    destruct (@read_code_of_symbol tree Hnd c
                (payload (buildEncodingMap tree) s ++ tail) Hc) as [p [-> ->]].
    rewrite IH. now rewrite <- app_assoc.
Qed.

(** Bits that stop inside a code leave the accumulator holding them when
    the stream ends. *)
Lemma read_code_partial (cm : Map std_string ascii) (w : std_string) :
  forall acc,
    Forall (fun d => d = "0"%char \/ d = "1"%char) w ->
    (forall q r, acc ++ w = q ++ r -> containsKey q cm = false) ->
    read_code cm acc (map bit_of w) = EndOfStream (acc ++ w).
Proof.
  induction w as [|d w IH]; intros acc Hbits Hfree; rewrite read_code_unfold.
  - rewrite (Hfree acc []) by reflexivity. simpl. now rewrite app_nil_r.
  - rewrite (Hfree acc (d :: w)) by reflexivity.
    inversion Hbits as [|? ? Hd Hbits']; subst.
    cbn [map]. rewrite (bit_of_digit Hd).
    replace (acc ++ d :: w) with ((acc ++ [d]) ++ w)
      by (now rewrite <- app_assoc).
    apply IH; [assumption|].
    intros q r E. apply (Hfree q r). now rewrite <- E, <- app_assoc.
Qed.

Lemma decompress_cut (tree : HuffmanNode) (s w r : std_string) (c : ascii)
  (output : std_string) (fuel : nat) :
  strictly_binary tree = true ->
  NoDup (leaves tree) ->
  Forall (fun x => In x (leaves tree)) s ->
  path_to tree (w ++ r) c -> r <> [] ->
  length s < fuel ->
  decompress fuel
    {| file_header := flattenTreeToHeader tree;
       file_bits := payload (buildEncodingMap tree) s ++ map bit_of w |}
    output
  = (output ++ s, Ret w).
Proof.
  intros Hsb Hnd Hs Hp Hr Hlen.
  unfold decompress, readHeader. cbn [file_header file_bits].
  rewrite <- (app_nil_r (flattenTreeToHeader tree)).
  rewrite (recreate_trailing _ [] Hsb).
  unfold buildEncodingMap at 1 2. rewrite gatherLeaves_relabel.
  fold (buildEncodingMap tree).
  replace fuel with (length s + S (fuel - S (length s))) by lia.
  rewrite (@decode_loop_payload_then tree s Hnd Hs). cbn [decode_loop].
  rewrite (@read_code_partial _ w []); [reflexivity| |].
  - pose proof (path_to_bits Hp) as Hbits.
    apply Forall_app in Hbits. apply Hbits.
  - intros q r' E. simpl in E.
    destruct (containsKey q (invert_map (buildEncodingMap tree))) eqn:Eq;
      [|reflexivity].
    apply characterMap_key in Eq. destruct Eq as [c' Hq].
    rewrite E, <- app_assoc in Hp.
    destruct (@path_to_extend _ _ _ Hq _ _ Hp) as [Hnil _].
    apply app_eq_nil in Hnil. destruct Hnil. congruence.
Qed.

(** C6, as the code has it: when the bits stop inside a code, so that
    the accumulator is not empty at the end of the stream, [decompress]
    has put the symbols decoded so far and returns as it does at the end
    of any stream; it raises no error. *)
Theorem decompress_cut_stream_returns (tree : HuffmanNode)
  (s w r : std_string) (c : ascii) (output : std_string) (fuel : nat) :
  strictly_binary tree = true ->
  NoDup (leaves tree) ->
  Forall (fun x => In x (leaves tree)) s ->
  path_to tree (w ++ r) c -> w <> [] -> r <> [] ->
  length s < fuel ->
  decompress fuel
    {| file_header := flattenTreeToHeader tree;
       file_bits := payload (buildEncodingMap tree) s ++ map bit_of w |}
    output
  = (output ++ s, Ret w).
Proof. intros Hsb Hnd Hs Hp _ Hr Hlen. now apply (decompress_cut _ _ Hsb Hnd Hs Hp). Qed.

Lemma compress_file (X : std_string) (a b : ascii) :
  In a X -> In b X -> a <> b ->
  exists tree,
    strictly_binary tree = true
    /\ NoDup (leaves tree)
    /\ isLeaf tree = false
    /\ Forall (fun c => In c (leaves tree)) X
    /\ compress (istream_of X) empty_file
       = Ret ({| buffer := X; unread := [] |},
              {| file_header := flattenTreeToHeader tree;
                 file_bits := payload (buildEncodingMap tree) X |}).
Proof.
  intros Ha Hb Hne.
  destruct (@buildEncodingTree_builds (count_chars X []))
    as [tree [Htree [_ [_ [Hsb Hperm]]]]].
  { intros E. assert (Hin : In a (keys (count_chars X []))) by
      (apply keys_count_chars; auto).
    rewrite E in Hin. exact Hin. }
  assert (Hleaves : forall c, In c X -> In c (leaves tree)).
  { intros c Hc. apply (Permutation_in _ (Permutation_sym Hperm)).
    apply keys_count_chars. auto. }
  exists tree. split; [exact Hsb|]. split; [|split; [|split]].
  - apply (Permutation_NoDup (Permutation_sym Hperm)).
    apply keys_sorted_NoDup, count_chars_sorted. constructor.
  - destruct (isLeaf tree) eqn:E; [|reflexivity].
    destruct (isLeaf_true _ E) as [c Hc]. subst tree.
    pose proof (Hleaves a Ha) as H1. pose proof (Hleaves b Hb) as H2.
    simpl in H1, H2. intuition congruence.
  - apply Forall_forall. exact Hleaves.
  - unfold compress, buildFrequencyTable, istream_of. cbn [unread buffer].
    rewrite Htree. cbn [bind rewindStream buffer unread].
    rewrite write_codes_file. reflexivity.
Qed.

Lemma round_trip (X : std_string) (a b : ascii) :
  In a X -> In b X -> a <> b ->
  exists file,
    compress (istream_of X) empty_file
    = Ret ({| buffer := X; unread := [] |}, file)
    /\ forall fuel, length X < fuel -> decompress fuel file [] = (X, Ret []).
Proof.
  intros Ha Hb Hne.
  destruct (compress_file X Ha Hb Hne) as [tree [Hsb [Hnd [Hleaf [Hin Hc]]]]].
  eexists. split; [exact Hc|].
  intros fuel Hlen. unfold decompress, readHeader. cbn [file_header file_bits].
  rewrite <- (app_nil_r (flattenTreeToHeader tree)).
  rewrite (recreate_trailing _ [] Hsb).
  unfold buildEncodingMap at 1 2. rewrite gatherLeaves_relabel.
  fold (buildEncodingMap tree).
  now rewrite (@decode_loop_payload tree Hnd Hleaf X Hin fuel [] Hlen).
Qed.

Lemma compress_empty :
  compress (istream_of []) empty_file = Throw ErrorException.
Proof. reflexivity. Qed.

(** C1, as the code has it: for every byte sequence in which at least
    two different bytes occur, [compress] writes a file from which
    [decompress] puts the sequence back, and returns; for the empty
    sequence [compress] throws the error of the empty queue. *)
Theorem compress_decompress_round_trip (X : std_string) (a b : ascii) :
  In a X -> In b X -> a <> b ->
  (exists file,
     compress (istream_of X) empty_file
     = Ret ({| buffer := X; unread := [] |}, file)
     /\ forall fuel, length X < fuel -> decompress fuel file [] = (X, Ret []))
  /\ compress (istream_of []) empty_file = Throw ErrorException.
Proof.
  intros Ha Hb Hne. split; [now apply (round_trip X Ha Hb) | apply compress_empty].
Qed.

Lemma bit_of_digit_string (b : bool) :
  map bit_of (integerToString (Z.b2z b)) = [b].
Proof. destruct b; reflexivity. Qed.

(** How the inner loop ends.  On a match, the accumulator is a key and
    holds what it held before followed by the bits read, and the bits
    read are the front of the input; on the end of the stream, the
    accumulator is no key and the bits read are the whole input. *)
Lemma read_code_ends (cm : Map std_string ascii) (input : list bool) :
  forall acc,
    match read_code cm acc input with
    | Matched bits rest =>
        containsKey bits cm = true
        /\ exists w, bits = acc ++ w /\ input = map bit_of w ++ rest
    | EndOfStream bits =>
        containsKey bits cm = false
        /\ exists w, bits = acc ++ w /\ input = map bit_of w
    end.
Proof.
  induction input as [|b input IH]; intros acc; rewrite read_code_unfold;
    destruct (containsKey acc cm) eqn:E.
  - split; [exact E|]. exists []. now rewrite app_nil_r.
  - split; [exact E|]. exists []. now rewrite app_nil_r.
  - split; [exact E|]. exists []. now rewrite app_nil_r.
  - specialize (IH (acc ++ integerToString (Z.b2z b))).
    destruct (read_code cm (acc ++ integerToString (Z.b2z b)) input)
      as [bits rest|bits];
      destruct IH as [Hk [w [-> ->]]]; (split; [exact Hk|]);
      exists (integerToString (Z.b2z b) ++ w);
      rewrite map_app, bit_of_digit_string, <- !app_assoc; auto.
Qed.

(** When the empty string is no key, the loop returns after at most one
    trip more than there are bits, and not before the bits have run out:
    the keys it has matched, one after the other, and then the
    accumulator, are the whole input; for each matched key it has put
    the symbol of that key. *)
Lemma decode_loop_trace (cm : Map std_string ascii) :
  containsKey [] cm = false ->
  forall fuel input output,
    length input < fuel ->
    exists codes acc,
      decode_loop fuel cm input output
      = (output ++ map (subscript zero cm) codes, Ret acc)
      /\ Forall (fun w => containsKey w cm = true) codes
      /\ containsKey acc cm = false
      /\ map bit_of (concat codes ++ acc) = input.
Proof.
  intros Hempty. induction fuel as [|fuel IH]; intros input output Hlen; [lia|].
  cbn [decode_loop].
  pose proof (read_code_ends cm input []) as Hend.
  destruct (read_code cm [] input) as [bits rest|bits] eqn:Er.
  - destruct Hend as [Hk [w [-> ->]]]. cbn [app] in *.
    apply read_code_progress in Er. destruct Er as [[Hc _]|Hr]; [congruence|].
    destruct (IH rest (output ++ [subscript zero cm w]) ltac:(lia))
      as [codes [acc [-> [Hkeys [Hacc <-]]]]].
    exists (w :: codes), acc. repeat split.
    + cbn [map]. now rewrite <- app_assoc.
    + now constructor.
    + exact Hacc.
    + cbn [concat]. now rewrite <- app_assoc, map_app.
  - destruct Hend as [Hk [w [-> ->]]]. cbn [app] in *.
    exists [], w. cbn [map concat app]. rewrite app_nil_r. auto.
Qed.

(** C7, as the code has it: once the header has given a tree that is not
    a single leaf, [decompress] returns for every finite sequence of
    bits, within one trip through the loop more than there are bits, and
    it returns when the bits have run out, not before: the codes it has
    matched, in order, followed by what the accumulator holds at the
    return, are all the bits of the file, and for each matched code it
    has put that code's symbol.  The accumulator at the return is no
    code; it may be empty or not. *)
Theorem decompress_terminates (input : HuffmanFile) (output : std_string)
  (tree : HuffmanNode) (fuel : nat) :
  recreateTreeFromHeader (readHeader input) = Ret tree ->
  isLeaf tree = false ->
  length (file_bits input) < fuel ->
  exists codes acc,
    decompress fuel input output
    = (output
       ++ map (subscript zero (invert_map (buildEncodingMap tree))) codes,
       Ret acc)
    /\ Forall (fun w =>
                 containsKey w (invert_map (buildEncodingMap tree)) = true)
              codes
    /\ containsKey acc (invert_map (buildEncodingMap tree)) = false
    /\ map bit_of (concat codes ++ acc) = file_bits input.
Proof.
  intros Htree Hleaf Hlen. unfold decompress. rewrite Htree.
  apply decode_loop_trace; [|assumption].
  now apply characterMap_no_empty_key.
Qed.

(** ** Further properties of the header codec *)

Lemma leaves_nonempty (t : HuffmanNode) :
  strictly_binary t = true -> 1 <= length (leaves t).
Proof.
  induction t as [|ch zero IHz one IHo]; [discriminate|].
  intros Hsb. cbn [leaves]. destruct (isLeaf (Node ch zero one)) eqn:E.
  - simpl. lia.
  - destruct (strictly_binary_interior _ _ _ Hsb E) as [Hz Ho].
    rewrite length_app. specialize (IHz Hz). lia.
Qed.

Lemma flatten_length (t : HuffmanNode) :
  strictly_binary t = true ->
  length (flattenTreeToHeader t) + 2 = 4 * length (leaves t).
Proof.
  induction t as [|ch zero IHz one IHo]; [discriminate|].
  intros Hsb. cbn [flattenTreeToHeader leaves].
  destruct (isLeaf (Node ch zero one)) eqn:E.
  - reflexivity.
  - destruct (strictly_binary_interior _ _ _ Hsb E) as [Hz Ho].
    specialize (IHz Hz). specialize (IHo Ho).
    cbn [length]. rewrite !length_app. cbn [length]. lia.
Qed.

(** The header of a strictly binary tree with n leaves is 4n - 2
    characters long: two for each leaf and two for each of the n - 1
    interior nodes. *)
Theorem header_length (t : HuffmanNode) :
  strictly_binary t = true ->
  length (flattenTreeToHeader t) + 2 = 4 * length (leaves t).
Proof. apply flatten_length. Qed.

Lemma relabel_new_interior (zero one : HuffmanNode) :
  strictly_binary zero = true -> strictly_binary one = true ->
  relabel zero = zero -> relabel one = one ->
  relabel (new_interior zero one) = new_interior zero one.
Proof.
  intros Hz Ho Ez Eo.
  destruct (strictly_binary_new_interior zero one Hz Ho) as [_ [Hleaf _]].
  unfold new_interior in *. cbn [relabel]. rewrite Hleaf.
  unfold new_interior. now rewrite Ez, Eo.
Qed.

(** What the parser returns is a strictly binary tree built by the two
    constructors, and the characters it has taken from the string are as
    many as the header of that tree has. *)
Lemma helper_result (fuel : nat) :
  forall str t rest,
    recreateTreeFromHeaderHelper fuel str = Ret (t, rest) ->
    strictly_binary t = true
    /\ relabel t = t
    /\ exists consumed,
         str = consumed ++ rest
         /\ length consumed = length (flattenTreeToHeader t).
Proof.
  induction fuel as [|fuel IH]; intros str t rest Hrun; [discriminate|].
  cbn [recreateTreeFromHeaderHelper] in Hrun.
  destruct (startsWith str "."%char) eqn:Edot.
  - destruct str as [|x [|y s]]; try discriminate.
    cbn in Hrun. injection Hrun as <- <-.
    split; [reflexivity|]. split; [reflexivity|].
    exists [x; y]. split; reflexivity.
  - destruct str as [|x str1]; [discriminate|].
    cbn [substr length Nat.leb skipn bind] in Hrun.
    destruct (recreateTreeFromHeaderHelper fuel str1)
      as [[zero str2]| |] eqn:E1; cbn [bind] in Hrun; try discriminate.
    destruct (recreateTreeFromHeaderHelper fuel str2)
      as [[one str3]| |] eqn:E2; cbn [bind] in Hrun; try discriminate.
    destruct str3 as [|y str4]; [discriminate|].
    cbn [substr length Nat.leb skipn bind] in Hrun. injection Hrun as <- <-.
    destruct (IH _ _ _ E1) as [Hz [Rz [c1 [-> L1]]]].
    destruct (IH _ _ _ E2) as [Ho [Ro [c2 [-> L2]]]].
    destruct (strictly_binary_new_interior zero one Hz Ho) as [Hsb [Hleaf _]].
    split; [exact Hsb|]. split; [now apply relabel_new_interior|].
    exists (x :: c1 ++ c2 ++ [y]). split.
    + cbn [app]. now rewrite <- !app_assoc.
    + unfold new_interior in *. cbn [flattenTreeToHeader]. rewrite Hleaf.
      cbn [length]. rewrite !length_app. cbn [length]. lia.
Qed.

Lemma recreate_result (str : std_string) (t : HuffmanNode) :
  recreateTreeFromHeader str = Ret t ->
  strictly_binary t = true
  /\ relabel t = t
  /\ length (flattenTreeToHeader t) <= length str.
Proof.
  unfold recreateTreeFromHeader. intros Hrun.
  destruct (recreateTreeFromHeaderHelper (S (length str)) str)
    as [[t' rest]| |] eqn:E; cbn [bind] in Hrun; try discriminate.
  injection Hrun as ->.
  destruct (helper_result _ _ E) as [Hsb [Hrel [consumed [-> Hlen]]]].
  repeat split; try assumption. rewrite length_app. lia.
Qed.

Lemma recreate_flatten (t : HuffmanNode) :
  strictly_binary t = true -> relabel t = t ->
  recreateTreeFromHeader (flattenTreeToHeader t) = Ret t.
Proof.
  intros Hsb Hrel. pose proof (recreate_trailing t [] Hsb) as H.
  now rewrite app_nil_r, Hrel in H.
Qed.

(** Whenever the parser returns a tree, whatever the string was, the
    tree is strictly binary (never the null pointer, never a node with
    one subtree), writing its header and parsing that gives the same
    tree again, and the string was at least as long as that header,
    hence at least two characters long. *)
Theorem parsed_tree_well_formed (str : std_string) (t : HuffmanNode) :
  recreateTreeFromHeader str = Ret t ->
  strictly_binary t = true
  /\ recreateTreeFromHeader (flattenTreeToHeader t) = Ret t
  /\ length (flattenTreeToHeader t) <= length str
  /\ 2 <= length str.
Proof.
  intros Hrun. destruct (recreate_result _ Hrun) as [Hsb [Hrel Hlen]].
  pose proof (flatten_length t Hsb). pose proof (leaves_nonempty t Hsb).
  repeat split; try assumption; [now apply recreate_flatten | lia].
Qed.

(** ** Further properties of the tree builder *)

(** A property of queue entries that holds of the leaves and is kept by
    combining holds of whatever the loop ends with. *)
Lemma combine_all_keeps (P : Z * HuffmanNode -> Prop) :
  (forall p1 t1 p2 t2,
     P (p1, t1) -> P (p2, t2) -> P ((p1 + p2)%Z, new_interior t1 t2)) ->
  forall fuel q q',
    Forall P q -> combine_all fuel q = Ret q' -> Forall P q'.
Proof.
  intros Hcomb. induction fuel as [|fuel IH]; intros q q' HP Hrun;
    cbn [combine_all] in Hrun;
    destruct (Nat.eqb (size q) 1) eqn:E1;
    try (injection Hrun as <-; exact HP); try discriminate.
  destruct q as [|[p1 t1] [|[p2 t2] rest]]; try discriminate.
  cbn [combine_two peekPriority dequeue bind] in Hrun.
  apply (IH (enqueue (new_interior t1 t2) (p1 + p2)%Z rest) q'); [|exact Hrun].
  inversion HP as [|? ? H1 HP']; subst. inversion HP' as [|? ? H2 HPr]; subst.
  eapply Permutation_Forall; [symmetry; apply enqueue_perm|].
  constructor; [now apply Hcomb | assumption].
Qed.

Lemma enqueue_leaves_keeps (P : Z * HuffmanNode -> Prop)
  (freqTable : Map ascii Z) :
  (forall ch, In ch (keys freqTable) ->
     P (subscript 0%Z freqTable ch, new_leaf ch)) ->
  Forall P (enqueue_leaves freqTable).
Proof.
  intros Hleaf.
  destruct (@enqueue_leaves_fold freqTable (keys freqTable) [])
    as [_ [_ Hp]]; [constructor | constructor |].
  fold (enqueue_leaves freqTable) in Hp. simpl in Hp.
  eapply Permutation_Forall; [symmetry; exact Hp|].
  apply Forall_forall. intros e He. apply in_map_iff in He.
  destruct He as [ch [<- Hin]]. now apply Hleaf.
Qed.

Lemma buildEncodingTree_keeps (P : Z * HuffmanNode -> Prop)
  (freqTable : Map ascii Z) (tree : HuffmanNode) :
  (forall p1 t1 p2 t2,
     P (p1, t1) -> P (p2, t2) -> P ((p1 + p2)%Z, new_interior t1 t2)) ->
  (forall ch, In ch (keys freqTable) ->
     P (subscript 0%Z freqTable ch, new_leaf ch)) ->
  buildEncodingTree freqTable = Ret tree ->
  exists p,
    combine_all (S (size (enqueue_leaves freqTable))) (enqueue_leaves freqTable)
    = Ret [(p, tree)]
    /\ P (p, tree).
Proof.
  intros Hcomb Hleaf Hrun. unfold buildEncodingTree in Hrun.
  destruct freqTable as [|e m]; [discriminate|].
  destruct (@buildEncodingTree_builds (e :: m)) as [t [Ht _]]; [discriminate|].
  destruct (@combine_all_spec (S (size (enqueue_leaves (e :: m))))
              (enqueue_leaves (e :: m))) as [p [t' [Hq _]]].
  - intros E.
    destruct (@enqueue_leaves_fold (e :: m) (keys (e :: m)) [])
      as [_ [_ Hp]]; [constructor | constructor |].
    fold (enqueue_leaves (e :: m)) in Hp. rewrite E in Hp.
    apply Permutation_nil in Hp. discriminate.
  - lia.
  - destruct (@enqueue_leaves_fold (e :: m) (keys (e :: m)) [])
      as [Hs _]; [constructor | constructor |]. exact Hs.
  - destruct (@enqueue_leaves_fold (e :: m) (keys (e :: m)) [])
      as [_ [Hb _]]; [constructor | constructor |]. exact Hb.
  - rewrite Hq in Hrun. cbn [bind dequeue] in Hrun. injection Hrun as ->.
    exists p. split; [exact Hq|].
    pose proof (@combine_all_keeps P Hcomb _ _ _
                  (enqueue_leaves_keeps P (e :: m) Hleaf) Hq) as HP.
    now inversion HP.
Qed.

Lemma built_tree_canonical (freqTable : Map ascii Z) (tree : HuffmanNode) :
  buildEncodingTree freqTable = Ret tree ->
  strictly_binary tree = true /\ relabel tree = tree.
Proof.
  intros Hrun.
  destruct (@buildEncodingTree_keeps
              (fun e => strictly_binary (snd e) = true /\ relabel (snd e) = snd e)
              freqTable tree) as [p [_ HP]]; [| |exact Hrun|exact HP].
  - simpl. intros p1 t1 p2 t2 [H1 R1] [H2 R2]. split.
    + now apply strictly_binary_new_interior.
    + now apply relabel_new_interior.
  - simpl. auto.
Qed.

(** On a tree returned by [buildEncodingTree], writing the header and
    parsing it gives that very tree. *)
Theorem built_tree_round_trip (freqTable : Map ascii Z) (tree : HuffmanNode) :
  buildEncodingTree freqTable = Ret tree ->
  recreateTreeFromHeader (flattenTreeToHeader tree) = Ret tree.
Proof.
  intros Hrun. destruct (built_tree_canonical _ Hrun) as [Hsb Hrel].
  now apply recreate_flatten.
Qed.

(** ** Further properties of the encoding map *)

Lemma gatherLeaves_sorted (t : HuffmanNode) :
  forall map code, keys_sorted map -> keys_sorted (gatherLeaves t map code).
Proof.
  induction t as [|ch zero IHz one IHo]; intros map code Hs; [exact Hs|].
  cbn [gatherLeaves]. destruct (isLeaf (Node ch zero one)).
  - now apply put_sorted.
  - now apply IHo, IHz.
Qed.

(** The encoding map of any tree has exactly the leaf symbols of the
    tree as its keys, in increasing order and each once, and every code
    in it is a string of the characters 0 and 1. *)
Theorem encoding_map_keys_and_codes (tree : HuffmanNode) :
  keys_sorted (buildEncodingMap tree)
  /\ NoDup (keys (buildEncodingMap tree))
  /\ (forall c, In c (keys (buildEncodingMap tree)) <-> In c (leaves tree))
  /\ (forall c code,
        get c (buildEncodingMap tree) = Some code ->
        Forall (fun d => d = "0"%char \/ d = "1"%char) code).
Proof.
  assert (Hs : keys_sorted (buildEncodingMap tree))
    by (apply gatherLeaves_sorted; constructor).
  split; [exact Hs|]. split; [now apply keys_sorted_NoDup|]. split.
  - intros c. unfold buildEncodingMap. rewrite keys_gatherLeaves. simpl. tauto.
  - intros c code Hg. apply buildEncodingMap_path in Hg.
    now apply (path_to_bits Hg).
Qed.

(** ** Further properties of the frequency table *)

Lemma get_char_cons {V : Type} (k k' : ascii) (v' : V) (m : Map ascii V) :
  get k ((k', v') :: m)
  = if (char_value k <? char_value k')%Z then get k m
    else if (char_value k' <? char_value k)%Z then get k m
    else Some v'.
Proof.
  cbn [get]. unfold less, char_Less.
  destruct (char_value k <? char_value k')%Z;
    destruct (char_value k' <? char_value k)%Z; reflexivity.
Qed.

Lemma put_char_cons {V : Type} (k k' : ascii) (v v' : V) (m : Map ascii V) :
  put k v ((k', v') :: m)
  = if (char_value k <? char_value k')%Z then (k, v) :: (k', v') :: m
    else if (char_value k' <? char_value k)%Z then (k', v') :: put k v m
    else (k, v) :: m.
Proof. reflexivity. Qed.

Lemma get_below_keys {V : Type} (k : ascii) (m : Map ascii V) :
  Forall (fun x => (char_value k < char_value x)%Z) (keys m) ->
  get k m = None.
Proof.
  induction m as [|[k' v'] m IH]; intros Hall; [reflexivity|].
  cbn [keys map fst] in Hall. inversion Hall as [|? ? Hk Hall']; subst.
  rewrite get_char_cons.
  replace (char_value k <? char_value k')%Z with true by (symmetry; lia).
  now apply IH.
Qed.

Lemma table_total_put (k : ascii) (v : Z) (m : Map ascii Z) :
  keys_sorted m ->
  table_total (put k v m) = (table_total m + v - subscript 0%Z m k)%Z.
Proof.
  unfold keys_sorted, table_total, subscript.
  induction m as [|[k' v'] m IH]; intros Hs.
  - simpl. lia.
  - cbn [keys map fst] in Hs. inversion Hs as [|? ? Hm Hall]; subst.
    rewrite put_char_cons, get_char_cons.
    destruct (char_value k <? char_value k')%Z eqn:E1.
    + rewrite get_below_keys.
      * cbn [map snd fold_right]. lia.
      * eapply Forall_impl; [|exact Hall]. simpl. intros; lia.
    + destruct (char_value k' <? char_value k)%Z eqn:E2.
      * cbn [map snd fold_right]. rewrite (IH Hm). lia.
      * cbn [map snd fold_right]. lia.
Qed.

Lemma sum_zero {A : Type} (l : list A) :
  fold_right Z.add 0%Z (map (fun _ => 0%Z) l) = 0%Z.
Proof. induction l as [|x l IH]; simpl; lia. Qed.

Lemma sum_add {A : Type} (f g : A -> Z) (l : list A) :
  fold_right Z.add 0%Z (map (fun k => (f k + g k)%Z) l)
  = (fold_right Z.add 0%Z (map f l) + fold_right Z.add 0%Z (map g l))%Z.
Proof. induction l as [|x l IH]; simpl; lia. Qed.

Lemma sum_indicator (x : ascii) (l : list ascii) :
  NoDup l ->
  fold_right Z.add 0%Z (map (fun k => if ascii_dec x k then 1%Z else 0%Z) l)
  = if in_dec ascii_dec x l then 1%Z else 0%Z.
Proof.
  induction 1 as [|y l Hy Hnd IH]; [reflexivity|].
  cbn [map fold_right]. rewrite IH.
  destruct (ascii_dec x y) as [E|Hne];
    destruct (in_dec ascii_dec x l) as [Hl|Hl];
    destruct (in_dec ascii_dec x (y :: l)) as [Hin|Hnin];
    try lia; exfalso; subst; simpl in *; intuition congruence.
Qed.

(** Over a list that holds each byte of [s] once, the numbers of
    occurrences add up to the length of [s]. *)
Lemma sum_occurrences (s : std_string) (l : list ascii) :
  NoDup l -> (forall x, In x s -> In x l) ->
  fold_right Z.add 0%Z (map (fun k => occurrences k s) l)
  = Z.of_nat (length s).
Proof.
  intros Hnd. induction s as [|x s IH]; intros Hin.
  - cbn [length]. apply sum_zero.
  - rewrite (map_ext _ (fun k => ((if ascii_dec x k then 1 else 0)
                                  + occurrences k s)%Z))
      by (intros k; apply occurrences_cons).
    rewrite sum_add, sum_indicator by assumption.
    rewrite IH by (intros y Hy; apply Hin; simpl; auto).
    destruct (in_dec ascii_dec x l) as [_|Hn];
      [cbn [length]; lia | exfalso; apply Hn, Hin; simpl; auto].
Qed.

Lemma occurrences_le_length (c : ascii) (s : std_string) :
  (occurrences c s <= Z.of_nat (length s))%Z.
Proof.
  unfold occurrences. pose proof (count_occ_bound ascii_dec c s). lia.
Qed.

Lemma subscript_keys (m : Map ascii Z) :
  keys_sorted m -> map (subscript 0%Z m) (keys m) = map snd m.
Proof.
  unfold keys_sorted. induction m as [|[k v] m IH]; intros Hs; [reflexivity|].
  cbn [keys map fst snd] in *. inversion Hs as [|? ? Hm Hall]; subst.
  f_equal.
  - unfold subscript. rewrite get_char_cons. now rewrite Z.ltb_irrefl.
  - rewrite <- (IH Hm). apply map_ext_in. intros k2 Hk2.
    rewrite Forall_forall in Hall. specialize (Hall k2 Hk2).
    unfold subscript. rewrite get_char_cons.
    replace (char_value k2 <? char_value k)%Z with false by (symmetry; lia).
    replace (char_value k <? char_value k2)%Z with true by (symmetry; lia).
    reflexivity.
Qed.

(** As long as the input is no longer than [INT_MAX] bytes no count
    leaves the range of [int]. *)
Lemma count_chars_exact (s : std_string) (c : ascii) :
  (Z.of_nat (length s) <= INT_MAX)%Z ->
  get c (count_chars s [])
  = if (occurrences c s =? 0)%Z then None else Some (occurrences c s).
Proof.
  intros Hmax. rewrite get_count_chars.
  pose proof (occurrences_nonneg c s). pose proof (occurrences_le_length c s).
  destruct (occurrences c s =? 0)%Z; [reflexivity|].
  unfold subscript. cbn [get]. rewrite int_wrap_exact; [reflexivity|].
  unfold INT_MAX in *. lia.
Qed.

Lemma table_total_count_chars (s : std_string) :
  (Z.of_nat (length s) <= INT_MAX)%Z ->
  table_total (count_chars s []) = Z.of_nat (length s).
Proof.
  intros Hmax.
  assert (Hs : keys_sorted (count_chars s []))
    by (apply count_chars_sorted; constructor).
  unfold table_total. rewrite <- (subscript_keys Hs).
  rewrite (map_ext_in _ (fun k => occurrences k s)).
  - apply sum_occurrences; [now apply keys_sorted_NoDup|].
    intros x Hx. apply keys_count_chars. auto.
  - intros k Hk. unfold subscript. rewrite (@count_chars_exact s k Hmax).
    apply keys_count_chars in Hk. destruct Hk as [Hk|[]].
    destruct (occurrences k s =? 0)%Z eqn:E; [|reflexivity].
    unfold occurrences in E. apply (count_occ_In ascii_dec) in Hk. lia.
Qed.

(** For an input of at most [INT_MAX] bytes, the table
    [buildFrequencyTable] returns has its keys in increasing order, each
    once; they are the bytes that were still to be read; every count is
    at least one; and the counts add up to the number of bytes read. *)
Theorem frequency_table_invariants (input : istream) :
  (Z.of_nat (length (unread input)) <= INT_MAX)%Z ->
  keys_sorted (fst (buildFrequencyTable input))
  /\ NoDup (keys (fst (buildFrequencyTable input)))
  /\ (forall c, In c (keys (fst (buildFrequencyTable input)))
                <-> In c (unread input))
  /\ (forall c n, get c (fst (buildFrequencyTable input)) = Some n ->
                  (1 <= n)%Z)
  /\ table_total (fst (buildFrequencyTable input))
     = Z.of_nat (length (unread input)).
Proof.
  intros Hmax. unfold buildFrequencyTable. cbn [fst].
  assert (Hs : keys_sorted (count_chars (unread input) []))
    by (apply count_chars_sorted; constructor).
  split; [exact Hs|]. split; [now apply keys_sorted_NoDup|].
  split; [|split].
  - intros c. rewrite keys_count_chars. simpl. tauto.
  - intros c n. rewrite (@count_chars_exact (unread input) c Hmax).
    pose proof (occurrences_nonneg c (unread input)).
    destruct (occurrences c (unread input) =? 0)%Z eqn:E; [discriminate|].
    intros [= <-]. lia.
  - now apply table_total_count_chars.
Qed.

(** ** The priorities in the queue *)

Lemma sum_app (l1 l2 : list Z) :
  fold_right Z.add 0%Z (l1 ++ l2)
  = (fold_right Z.add 0%Z l1 + fold_right Z.add 0%Z l2)%Z.
Proof. induction l1 as [|x l1 IH]; simpl; lia. Qed.

Lemma sum_perm (l1 l2 : list Z) :
  Permutation l1 l2 -> fold_right Z.add 0%Z l1 = fold_right Z.add 0%Z l2.
Proof. induction 1; simpl; lia. Qed.

Lemma built_tree_leaves (freqTable : Map ascii Z) (tree : HuffmanNode) :
  buildEncodingTree freqTable = Ret tree ->
  strictly_binary tree = true /\ Permutation (leaves tree) (keys freqTable).
Proof.
  intros Hrun. destruct freqTable as [|e m]; [discriminate|].
  destruct (@buildEncodingTree_builds (e :: m))
    as [t [Ht [_ [_ [Hsb Hperm]]]]]; [discriminate|].
  rewrite Ht in Hrun. injection Hrun as <-. auto.
Qed.

Lemma root_priority (freqTable : Map ascii Z) (tree : HuffmanNode) :
  keys_sorted freqTable ->
  buildEncodingTree freqTable = Ret tree ->
  combine_all (S (size (enqueue_leaves freqTable))) (enqueue_leaves freqTable)
  = Ret [(table_total freqTable, tree)].
Proof.
  intros Hs Hrun.
  destruct (@buildEncodingTree_keeps
              (fun e => strictly_binary (snd e) = true
                        /\ fst e = weight freqTable (snd e))
              freqTable tree) as [p [Hq [_ Hp]]]; [| |exact Hrun|].
  - cbn [fst snd]. intros p1 t1 p2 t2 [H1 W1] [H2 W2].
    destruct (strictly_binary_new_interior t1 t2 H1 H2) as [Hsb [_ Hl]].
    split; [exact Hsb|]. unfold weight in *.
    rewrite Hl, map_app, sum_app. lia.
  - cbn [fst snd]. intros ch _. split; [reflexivity|].
    unfold weight. simpl. lia.
  - cbn [fst snd] in Hp. rewrite Hq. do 3 f_equal. rewrite Hp.
    destruct (built_tree_leaves _ Hrun) as [_ Hperm].
    unfold weight, table_total.
    rewrite (sum_perm (Permutation_map _ Hperm)).
    now rewrite subscript_keys.
Qed.

Lemma combine_trips_keeps (P : Z * HuffmanNode -> Prop) :
  (forall p1 t1 p2 t2,
     P (p1, t1) -> P (p2, t2) -> P ((p1 + p2)%Z, new_interior t1 t2)) ->
  forall n q q',
    Forall P q -> combine_trips n q = Ret q' -> Forall P q'.
Proof.
  intros Hcomb. induction n as [|n IH]; intros q q' HP Hrun;
    cbn [combine_trips] in Hrun.
  - injection Hrun as <-. exact HP.
  - destruct q as [|[p1 t1] [|[p2 t2] rest]]; try discriminate.
    cbn [combine_two peekPriority dequeue bind] in Hrun.
    apply (IH (enqueue (new_interior t1 t2) (p1 + p2)%Z rest) q'); [|exact Hrun].
    inversion HP as [|? ? H1 HP']; subst. inversion HP' as [|? ? H2 HPr]; subst.
    eapply Permutation_Forall; [symmetry; apply enqueue_perm|].
    constructor; [now apply Hcomb | assumption].
Qed.

Lemma priorities_are_weights (freqTable : Map ascii Z) (n : nat)
  (q : PriorityQueue HuffmanNode) :
  combine_trips n (enqueue_leaves freqTable) = Ret q ->
  Forall (fun e => fst e = weight freqTable (snd e)) q.
Proof.
  intros Hrun.
  assert (HP : Forall (fun e => strictly_binary (snd e) = true
                                /\ fst e = weight freqTable (snd e)) q).
  { apply (@combine_trips_keeps _) with
      (n := n) (q := enqueue_leaves freqTable); [| |exact Hrun].
    - cbn [fst snd]. intros p1 t1 p2 t2 [H1 W1] [H2 W2].
      destruct (strictly_binary_new_interior t1 t2 H1 H2) as [Hsb [_ Hl]].
      split; [exact Hsb|]. unfold weight in *.
      rewrite Hl, map_app, sum_app. lia.
    - apply enqueue_leaves_keeps. cbn [fst snd]. intros ch _.
      split; [reflexivity|]. unfold weight. simpl. lia. }
  eapply Forall_impl; [|exact HP]. simpl. tauto.
Qed.

(** At every pass through the head of the loop of [buildEncodingTree]
    the priority of each node in the queue is the sum of the counts of
    the symbols at its leaves; so when the table is the one
    [buildFrequencyTable] returns for an input of at most [INT_MAX]
    bytes, the one node the loop ends with has the number of bytes read
    as its priority. *)
Theorem root_priority_is_input_length (input : istream) (tree : HuffmanNode) :
  (Z.of_nat (length (unread input)) <= INT_MAX)%Z ->
  buildEncodingTree (fst (buildFrequencyTable input)) = Ret tree ->
  (forall n q,
     combine_trips n (enqueue_leaves (fst (buildFrequencyTable input))) = Ret q ->
     Forall (fun e => fst e = weight (fst (buildFrequencyTable input)) (snd e)) q)
  /\ combine_all
       (S (size (enqueue_leaves (fst (buildFrequencyTable input)))))
       (enqueue_leaves (fst (buildFrequencyTable input)))
     = Ret [(Z.of_nat (length (unread input)), tree)].
Proof.
  intros Hmax Hrun. split; [intros n q; apply priorities_are_weights|].
  assert (Hs : keys_sorted (fst (buildFrequencyTable input)))
    by (apply count_chars_sorted; constructor).
  rewrite (root_priority Hs Hrun). do 3 f_equal.
  unfold buildFrequencyTable. cbn [fst].
  now apply table_total_count_chars.
Qed.

(** ** The lengths of the codes *)

Lemma path_length (t : HuffmanNode) (p : std_string) (c : ascii) :
  path_to t p c -> strictly_binary t = true ->
  length p < length (leaves t).
Proof.
  induction 1 as [c|ch zero one p c Hleaf Hp IH|ch zero one p c Hleaf Hp IH];
    intros Hsb.
  - simpl. lia.
  - destruct (strictly_binary_interior _ _ _ Hsb Hleaf) as [Hz Ho].
    cbn [leaves]. rewrite Hleaf, length_app. cbn [length].
    specialize (IH Hz). pose proof (leaves_nonempty one Ho). lia.
  - destruct (strictly_binary_interior _ _ _ Hsb Hleaf) as [Hz Ho].
    cbn [leaves]. rewrite Hleaf, length_app. cbn [length].
    specialize (IH Ho). pose proof (leaves_nonempty zero Hz). lia.
Qed.

Lemma two_leaves_interior (t : HuffmanNode) :
  2 <= length (leaves t) -> isLeaf t = false.
Proof.
  intros Hlen. destruct (isLeaf t) eqn:E; [|reflexivity].
  destruct (isLeaf_true _ E) as [c ->]. simpl in Hlen. lia.
Qed.

Lemma code_length (freqTable : Map ascii Z) (tree : HuffmanNode)
  (c : ascii) (code : std_string) :
  buildEncodingTree freqTable = Ret tree ->
  get c (buildEncodingMap tree) = Some code ->
  length code < length (keys freqTable)
  /\ (2 <= length (keys freqTable) -> 1 <= length code).
Proof.
  intros Hrun Hg. destruct (built_tree_leaves _ Hrun) as [Hsb Hperm].
  apply buildEncodingMap_path in Hg.
  rewrite <- (Permutation_length Hperm). split.
  - now apply (path_length Hg).
  - intros Hlen. apply two_leaves_interior in Hlen.
    pose proof (path_to_interior Hg Hlen). destruct code; [congruence|simpl; lia].
Qed.

(** In the encoding map of a tree built from a table of n symbols every
    code is shorter than n, and when n is at least two no code is
    empty. *)
Theorem code_length_bounds (freqTable : Map ascii Z) (tree : HuffmanNode)
  (c : ascii) (code : std_string) :
  buildEncodingTree freqTable = Ret tree ->
  get c (buildEncodingMap tree) = Some code ->
  length code < length (keys freqTable)
  /\ (2 <= length (keys freqTable) -> 1 <= length code).
Proof. apply code_length. Qed.

(** ** What [compress] writes *)

Lemma compress_contents (input : istream) :
  unread input <> [] ->
  exists tree,
    compress input empty_file
    = Ret ({| buffer := buffer input; unread := [] |},
           {| file_header := flattenTreeToHeader tree;
              file_bits := payload (buildEncodingMap tree) (buffer input) |})
    /\ strictly_binary tree = true
    /\ NoDup (leaves tree)
    /\ (forall c, In c (leaves tree) <-> In c (unread input))
    /\ (forall c, ~ In c (unread input) ->
                  subscript [] (buildEncodingMap tree) c = []).
Proof.
  intros Hne.
  destruct (@buildEncodingTree_builds (count_chars (unread input) []))
    as [tree [Htree [_ [_ [Hsb Hperm]]]]].
  { destruct (unread input) as [|c0 rest] eqn:E; [congruence|].
    intros E0. assert (Hin : In c0 (keys (count_chars (c0 :: rest) []))) by
      (apply keys_count_chars; simpl; auto).
    rewrite E0 in Hin. exact Hin. }
  assert (Hleaves : forall c, In c (leaves tree) <-> In c (unread input)).
  { intros c. split; intros Hc.
    - apply (Permutation_in _ Hperm) in Hc.
      apply keys_count_chars in Hc. simpl in Hc. tauto.
    - apply (Permutation_in _ (Permutation_sym Hperm)).
      apply keys_count_chars. auto. }
  exists tree. split; [|split; [exact Hsb|split; [|split; [exact Hleaves|]]]].
  - unfold compress, buildFrequencyTable. rewrite Htree.
    cbn [bind rewindStream buffer unread]. rewrite write_codes_file.
    reflexivity.
  - apply (Permutation_NoDup (Permutation_sym Hperm)).
    apply keys_sorted_NoDup, count_chars_sorted. constructor.
  - intros c Hc. unfold subscript, buildEncodingMap.
    rewrite gatherLeaves_other; [reflexivity|]. now rewrite Hleaves.
Qed.

(** [compress] on a stream with something left to read returns with the
    stream read to its end, a header that is the header of a strictly
    binary tree whose leaves are the bytes that were left to read, each
    once, and as payload the codes of all bytes of the stream from its
    beginning (it rewinds); a byte that occurs only in the part read
    before the call gets no bit. *)
Theorem compress_writes_header_and_codes (input : istream) :
  unread input <> [] ->
  exists tree,
    compress input empty_file
    = Ret ({| buffer := buffer input; unread := [] |},
           {| file_header := flattenTreeToHeader tree;
              file_bits := payload (buildEncodingMap tree) (buffer input) |})
    /\ strictly_binary tree = true
    /\ NoDup (leaves tree)
    /\ (forall c, In c (leaves tree) <-> In c (unread input))
    /\ (forall c, ~ In c (unread input) ->
                  subscript [] (buildEncodingMap tree) c = []).
Proof. apply compress_contents. Qed.

Lemma payload_one_bit_each (binaryMap : Map ascii std_string) (X : std_string) :
  (forall c, In c X -> length (subscript [] binaryMap c) = 1) ->
  length (payload binaryMap X) = length X.
Proof.
  unfold payload. induction X as [|c X IH]; intros Hone; [reflexivity|].
  cbn [flat_map length]. rewrite length_app, length_map.
  rewrite Hone by (simpl; auto). rewrite IH; [reflexivity|].
  intros c' Hc'. apply Hone. simpl. auto.
Qed.

(** For an input in which exactly two different bytes occur, [compress]
    writes a header of six characters and one bit for each byte of the
    input. *)
Theorem two_symbols_one_bit_each (X : std_string) (a b : ascii) :
  a <> b -> In a X -> In b X ->
  (forall c, In c X -> c = a \/ c = b) ->
  exists input' file,
    compress (istream_of X) empty_file = Ret (input', file)
    /\ length (file_header file) = 6
    /\ length (file_bits file) = length X.
Proof.
  intros Hne Ha Hb Honly.
  destruct (@compress_contents (istream_of X))
    as [tree [Hc [Hsb [Hnd [Hleaves _]]]]].
  { simpl. intros E. rewrite E in Ha. exact Ha. }
  cbn [istream_of unread buffer] in *.
  assert (Hlen : length (leaves tree) = 2).
  { apply (@Permutation_length _ _ [a; b]).
    apply NoDup_Permutation; [exact Hnd | |].
    - repeat constructor; simpl; intuition congruence.
    - intros c. rewrite Hleaves. simpl. split.
      + intros Hc0. destruct (Honly c Hc0); auto.
      + intros [<-|[<-|[]]]; assumption. }
  eexists. eexists. split; [exact Hc|]. cbn [file_header file_bits]. split.
  - pose proof (flatten_length tree Hsb). lia.
  - apply payload_one_bit_each. intros c Hc0.
    apply Hleaves in Hc0.
    destruct (@binaryMap_code tree Hnd c Hc0) as [p [Hp Hg]].
    rewrite (subscript_get _ _ _ Hg).
    pose proof (path_length Hp Hsb).
    assert (Hint : isLeaf tree = false) by (apply two_leaves_interior; lia).
    pose proof (path_to_interior Hp Hint).
    destruct p; [congruence|simpl in *; lia].
Qed.

(** ** What [decompress] does with any header *)

(** For every strictly binary tree that is not a single leaf and has no
    symbol at two leaves, not only for the trees [buildEncodingTree]
    returns: from the header of the tree and the codes of a sequence of
    its leaf symbols, [decompress] puts that sequence and returns with
    the accumulator empty. *)
Theorem decompress_any_valid_header (tree : HuffmanNode) (s output : std_string)
  (fuel : nat) :
  strictly_binary tree = true ->
  NoDup (leaves tree) ->
  isLeaf tree = false ->
  Forall (fun c => In c (leaves tree)) s ->
  length s < fuel ->
  decompress fuel
    {| file_header := flattenTreeToHeader tree;
       file_bits := payload (buildEncodingMap tree) s |}
    output
  = (output ++ s, Ret []).
Proof.
  intros Hsb Hnd Hleaf Hs Hlen.
  unfold decompress, readHeader. cbn [file_header file_bits].
  pose proof (recreate_trailing tree [] Hsb) as Hparse.
  rewrite app_nil_r in Hparse. rewrite Hparse.
  unfold buildEncodingMap at 1 2. rewrite gatherLeaves_relabel.
  fold (buildEncodingMap tree).
  now apply (@decode_loop_payload tree Hnd Hleaf s Hs).
Qed.

Lemma bit_of_integerToString (b : bool) :
  map bit_of (integerToString (Z.b2z b)) = [b].
Proof. destruct b; reflexivity. Qed.

(** The accumulator at the end of the inner loop is the accumulator at
    its start followed by the bits read. *)
Lemma read_code_consumed (cm : Map std_string ascii) (input : list bool) :
  forall acc,
    match read_code cm acc input with
    | Matched bits rest =>
        containsKey bits cm = true
        /\ exists w, bits = acc ++ w /\ input = map bit_of w ++ rest
    | EndOfStream bits =>
        exists w, bits = acc ++ w /\ input = map bit_of w
    end.
Proof.
  induction input as [|b input IH]; intros acc; rewrite read_code_unfold;
    destruct (containsKey acc cm) eqn:E.
  - split; [exact E|]. exists []. now rewrite app_nil_r.
  - exists []. now rewrite app_nil_r.
  - split; [exact E|]. exists []. now rewrite app_nil_r.
  - specialize (IH (acc ++ integerToString (Z.b2z b))).
    destruct (read_code cm (acc ++ integerToString (Z.b2z b)) input)
      as [bits rest|bits].
    + destruct IH as [Hk [w [-> ->]]]. split; [exact Hk|].
      exists (integerToString (Z.b2z b) ++ w).
      rewrite map_app, bit_of_integerToString, <- !app_assoc. auto.
    + destruct IH as [w [-> ->]].
      exists (integerToString (Z.b2z b) ++ w).
      rewrite map_app, bit_of_integerToString, <- !app_assoc. auto.
Qed.

Lemma decode_loop_accounts (tree : HuffmanNode) :
  NoDup (leaves tree) ->
  forall fuel input output out acc,
    decode_loop fuel (invert_map (buildEncodingMap tree)) input output
    = (out, Ret acc) ->
    exists decoded,
      out = output ++ decoded
      /\ payload (buildEncodingMap tree) decoded ++ map bit_of acc = input.
Proof.
  intros Hnd. induction fuel as [|fuel IH]; intros input output out acc Hrun;
    [discriminate|].
  cbn [decode_loop] in Hrun.
  pose proof (read_code_consumed (invert_map (buildEncodingMap tree)) input [])
    as Hread.
  destruct (read_code (invert_map (buildEncodingMap tree)) [] input)
    as [bits rest|bits].
  - destruct Hread as [Hk [w [-> ->]]]. cbn [app] in *.
    apply characterMap_key in Hk. destruct Hk as [c Hp].
    pose proof (@characterMap_code tree Hnd c w Hp) as Hc.
    rewrite (subscript_get _ _ _ Hc) in Hrun.
    apply IH in Hrun. destruct Hrun as [decoded [-> <-]].
    exists (c :: decoded). split; [now rewrite <- app_assoc|].
    rewrite payload_cons, <- app_assoc. f_equal.
    unfold payload. cbn [flat_map]. rewrite app_nil_r.
    assert (Hg : get c (buildEncodingMap tree) = Some w).
    { unfold buildEncodingMap. now rewrite (gatherLeaves_path Hnd _ _ Hp). }
    now rewrite (subscript_get _ _ _ Hg).
  - destruct Hread as [w [-> ->]]. cbn [app] in *.
    injection Hrun as <- <-. exists []. now rewrite app_nil_r.
Qed.

(** Whenever [decompress] returns, on any header that gives a tree with
    no symbol at two leaves and on any bits, the codes of the symbols it
    has put, followed by the bits left in the accumulator, are exactly
    the bits of the file: no bit is skipped and none is made up. *)
Theorem decompress_accounts_for_every_bit (input : HuffmanFile)
  (tree : HuffmanNode) (output out acc : std_string) (fuel : nat) :
  recreateTreeFromHeader (readHeader input) = Ret tree ->
  NoDup (leaves tree) ->
  decompress fuel input output = (out, Ret acc) ->
  exists decoded,
    out = output ++ decoded
    /\ payload (buildEncodingMap tree) decoded ++ map bit_of acc
       = file_bits input.
Proof.
  intros Hparse Hnd. unfold decompress. rewrite Hparse.
  now apply decode_loop_accounts.
Qed.

(** When the header is the header of a tree cut short, [decompress]
    throws [std::out_of_range] before it reads a bit or puts a byte. *)
Theorem decompress_truncated_header (T : HuffmanNode) (s s' : std_string)
  (bits : list bool) (output : std_string) (fuel : nat) :
  strictly_binary T = true ->
  flattenTreeToHeader T = s ++ s' -> s' <> [] ->
  decompress fuel {| file_header := s; file_bits := bits |} output
  = (output, Throw out_of_range).
Proof.
  intros Hsb Hcut Hs'. unfold decompress, readHeader. cbn [file_header].
  now rewrite (recreate_truncated T s Hsb Hcut Hs').
Qed.

(** ** A symbol at several leaves *)

Lemma last_map_cons (d : ascii) (l : list std_string) :
  l <> [] -> last (map (cons d) l) [] = d :: last l [].
Proof.
  induction l as [|x [|y l] IH]; intros Hne; [congruence|reflexivity|].
  change (last (map (cons d) (y :: l)) [] = d :: last (y :: l) []).
  apply IH. discriminate.
Qed.

Lemma last_app_right {A : Type} (l1 l2 : list A) (d : A) :
  l2 <> [] -> last (l1 ++ l2) d = last l2 d.
Proof.
  intros Hne. induction l1 as [|x l1 IH]; [reflexivity|].
  cbn [app]. destruct (l1 ++ l2) eqn:E.
  - apply app_eq_nil in E. destruct E. congruence.
  - cbn [last]. exact IH.
Qed.

Lemma paths_to_path_to (t : HuffmanNode) (c : ascii) :
  forall p, In p (paths_to t c) <-> path_to t p c.
Proof.
  induction t as [|ch zero IHz one IHo]; intros p.
  - simpl. split; [tauto | intros H; inversion H].
  - cbn [paths_to]. destruct (isLeaf (Node ch zero one)) eqn:E.
    + destruct (isLeaf_true _ E) as [c0 Hc]. injection Hc as <- -> ->.
      destruct (Ascii.eqb ch c) eqn:Ec.
      * apply Ascii.eqb_eq in Ec. subst c. simpl. split.
        -- intros [<-|[]]. constructor.
        -- intros H. inversion H; subst; simpl in *; try discriminate. auto.
      * apply Ascii.eqb_neq in Ec. simpl. split; [tauto|].
        intros H. inversion H; subst; simpl in *; try discriminate. congruence.
    + rewrite in_app_iff, !in_map_iff. split.
      * intros [[q [<- Hq]]|[q [<- Hq]]].
        -- apply path_zero; [exact E | now apply IHz].
        -- apply path_one; [exact E | now apply IHo].
      * intros H. inversion H as [|? ? ? q ? Hl Hq|? ? ? q ? Hl Hq]; subst.
        -- simpl in E. discriminate.
        -- left. exists q. split; [reflexivity | now apply IHz].
        -- right. exists q. split; [reflexivity | now apply IHo].
Qed.

Lemma gatherLeaves_last (t : HuffmanNode) (c : ascii) :
  forall m code,
    get c (gatherLeaves t m code)
    = match paths_to t c with
      | [] => get c m
      | _ :: _ => Some (code ++ last (paths_to t c) [])
      end.
Proof.
  induction t as [|ch zero IHz one IHo]; intros m code; [reflexivity|].
  cbn [gatherLeaves paths_to]. destruct (isLeaf (Node ch zero one)) eqn:E.
  - destruct (Ascii.eqb ch c) eqn:Ec.
    + apply Ascii.eqb_eq in Ec. subst c. cbn [last].
      rewrite app_nil_r. apply (get_put_same char_less_irrefl).
    + apply Ascii.eqb_neq in Ec.
      apply (get_put_other char_less_same). congruence.
  - rewrite IHo, IHz.
    destruct (paths_to one c) as [|q1 l1] eqn:E1.
    + cbn [map]. rewrite app_nil_r.
      destruct (paths_to zero c) as [|q0 l0] eqn:E0; [reflexivity|].
      rewrite last_map_cons by discriminate.
      cbn [map]. now rewrite integerToString_0, <- app_assoc.
    + rewrite last_app_right by discriminate.
      rewrite last_map_cons by discriminate.
      destruct (map (cons "0"%char) (paths_to zero c) ++ map (cons "1"%char) (q1 :: l1))
        eqn:E2.
      * apply app_eq_nil in E2. destruct E2. discriminate.
      * now rewrite integerToString_1, <- app_assoc.
Qed.

(** When a symbol sits at several leaves of a tree, as a header written
    by hand may have it, the encoding map keeps for it the path to the
    last of them in the order of the traversal, the zero side before the
    one side; a symbol at no leaf has no entry. *)
Theorem encoding_map_keeps_last_leaf (tree : HuffmanNode) (c : ascii) :
  (forall p, In p (paths_to tree c) <-> path_to tree p c)
  /\ get c (buildEncodingMap tree)
     = match paths_to tree c with
       | [] => None
       | _ :: _ => Some (last (paths_to tree c) [])
       end.
Proof.
  split; [apply paths_to_path_to|].
  unfold buildEncodingMap. rewrite gatherLeaves_last. reflexivity.
Qed.

End Program.

(** * Concrete runs

    The runs below fix a platform with signed [char] and an interior
    node whose [ch] field is NUL. *)

Lemma header_round_trip_witness :
  strictly_binary
    (Node "x" (Node "." nullptr nullptr)
       (Node "y" (Node "(" nullptr nullptr) (Node ")" nullptr nullptr))) = true
  /\ exists T',
       recreateTreeFromHeader zero
         (flattenTreeToHeader
            (Node "x" (Node "." nullptr nullptr)
               (Node "y" (Node "(" nullptr nullptr) (Node ")" nullptr nullptr))))
       = Ret T'
       /\ same_structure
            (Node "x" (Node "." nullptr nullptr)
               (Node "y" (Node "(" nullptr nullptr) (Node ")" nullptr nullptr)))
            T'.
Proof.
  split; [reflexivity|].
  apply (@header_round_trip zero). reflexivity.
Defined.

Lemma encoding_map_prefix_free_witness :
  "a"%char <> "b"%char
  /\ get (H:=char_Less true) "a"%char
       (buildEncodingMap true
          (Node zero (Node "a" nullptr nullptr)
             (Node zero (Node "b" nullptr nullptr) (Node "c" nullptr nullptr))))
     = Some (lit "0")
  /\ get (H:=char_Less true) "b"%char
       (buildEncodingMap true
          (Node zero (Node "a" nullptr nullptr)
             (Node zero (Node "b" nullptr nullptr) (Node "c" nullptr nullptr))))
     = Some (lit "10")
  /\ ~ is_prefix (lit "0") (lit "10") /\ ~ is_prefix (lit "10") (lit "0").
Proof.
  assert (Hne : "a"%char <> "b"%char) by discriminate.
  split; [exact Hne|]. split; [reflexivity|]. split; [reflexivity|].
  apply (@encoding_map_prefix_free true
           (Node zero (Node "a" nullptr nullptr)
              (Node zero (Node "b" nullptr nullptr) (Node "c" nullptr nullptr)))
           "a"%char "b"%char (lit "0") (lit "10") Hne);
    reflexivity.
Defined.

Lemma recreateTreeFromHeader_malformed_witness :
  strictly_binary
    (Node zero (Node "a" nullptr nullptr) (Node "b" nullptr nullptr)) = true
  /\ recreateTreeFromHeader zero (lit "(.a.b") = Throw out_of_range
  /\ recreateTreeFromHeader zero (lit "(.a.b))")
     = Ret (Node zero (Node "a" nullptr nullptr) (Node "b" nullptr nullptr)).
Proof.
  split; [reflexivity|].
  destruct (@recreateTreeFromHeader_malformed zero
              (Node zero (Node "a" nullptr nullptr) (Node "b" nullptr nullptr))
              eq_refl) as [Hcut [Htrail _]].
  split.
  - apply (Hcut (lit "(.a.b") (lit ")")); [reflexivity | discriminate].
  - apply (Htrail (lit ")")).
Defined.

Lemma decompress_cut_stream_returns_witness :
  decompress true zero 3
    {| file_header := lit "(.a(.b.c))";
       file_bits := [false; true; false; true] |} []
  = (lit "ab", Ret (lit "1")).
Proof.
  apply (@decompress_cut_stream_returns true zero
           (Node zero (Node "a" nullptr nullptr)
              (Node zero (Node "b" nullptr nullptr) (Node "c" nullptr nullptr)))
           (lit "ab") (lit "1") (lit "0") "b"%char [] 3).
  - reflexivity.
  - repeat apply NoDup_cons; try apply NoDup_nil; simpl; intuition discriminate.
  - repeat apply Forall_cons; try apply Forall_nil; simpl; auto.
  - apply path_one; [reflexivity|].
    apply path_zero; [reflexivity|]. apply path_leaf.
  - discriminate.
  - discriminate.
  - simpl. lia.
Defined.

Lemma decompress_terminates_witness :
  exists codes acc,
    decompress true zero 5
      {| file_header := lit "(.a(.b.c))"; file_bits := [true; true; false; true] |}
      []
    = ([] ++ map (subscript zero
                    (invert_map true
                       (buildEncodingMap true
                          (Node zero (Node "a" nullptr nullptr)
                             (Node zero (Node "b" nullptr nullptr)
                                (Node "c" nullptr nullptr))))))
                 codes,
       Ret acc)
    /\ Forall (fun w =>
                 containsKey w
                   (invert_map true
                      (buildEncodingMap true
                         (Node zero (Node "a" nullptr nullptr)
                            (Node zero (Node "b" nullptr nullptr)
                               (Node "c" nullptr nullptr)))))
                 = true)
              codes
    /\ containsKey acc
         (invert_map true
            (buildEncodingMap true
               (Node zero (Node "a" nullptr nullptr)
                  (Node zero (Node "b" nullptr nullptr)
                     (Node "c" nullptr nullptr)))))
       = false
    /\ map bit_of (concat codes ++ acc) = [true; true; false; true].
Proof.
  apply (@decompress_terminates true zero
           {| file_header := lit "(.a(.b.c))";
              file_bits := [true; true; false; true] |}
           []
           (Node zero (Node "a" nullptr nullptr)
              (Node zero (Node "b" nullptr nullptr) (Node "c" nullptr nullptr)))
           5).
  - reflexivity.
  - reflexivity.
  - simpl. lia.
Defined.

Lemma buildEncodingTree_spec_witness :
  exists tree,
    buildEncodingTree true zero [("a"%char, 3%Z); ("b"%char, 1%Z)] = Ret tree
    /\ Permutation
         (enqueue_leaves true [("a"%char, 3%Z); ("b"%char, 1%Z)])
         (map (fun ch =>
                 (subscript (H:=char_Less true) 0%Z
                    [("a"%char, 3%Z); ("b"%char, 1%Z)] ch,
                  new_leaf ch))
              (keys [("a"%char, 3%Z); ("b"%char, 1%Z)]))
    /\ huffman_spec zero
         (enqueue_leaves true [("a"%char, 3%Z); ("b"%char, 1%Z)]) tree
    /\ strictly_binary tree = true
    /\ Permutation (leaves tree) (keys [("a"%char, 3%Z); ("b"%char, 1%Z)]).
Proof.
  apply (@buildEncodingTree_spec true zero). discriminate.
Defined.

Lemma compress_decompress_round_trip_witness :
  (exists file,
     compress true zero (istream_of (lit "aaab")) empty_file
     = Ret ({| buffer := lit "aaab"; unread := [] |}, file)
     /\ forall fuel, length (lit "aaab") < fuel ->
          decompress true zero fuel file [] = (lit "aaab", Ret []))
  /\ compress true zero (istream_of []) empty_file = Throw ErrorException.
Proof.
  apply (@compress_decompress_round_trip true zero (lit "aaab") "a"%char "b"%char).
  - simpl. auto.
  - simpl. auto.
  - discriminate.
Defined.

(** What the runs on degenerate and malformed inputs show. *)

Lemma round_trip_fails_without_two_symbols :
  compress true zero (istream_of []) empty_file = Throw ErrorException
  /\ compress true zero (istream_of (lit "zzzz")) empty_file
     = Ret ({| buffer := lit "zzzz"; unread := [] |},
            {| file_header := lit ".z"; file_bits := [] |})
  /\ forall fuel,
       decompress true zero fuel {| file_header := lit ".z"; file_bits := [] |} []
       = (repeat "z"%char fuel, Timeout).
Proof.
  split; [reflexivity|]. split; [reflexivity|].
  intros fuel. apply (decompress_single_leaf true zero "z"%char [] []).
Qed.

Lemma malformed_header_accepted :
  recreateTreeFromHeader zero (lit "x.a.by")
  = Ret (Node zero (Node "a" nullptr nullptr) (Node "b" nullptr nullptr))
  /\ recreateTreeFromHeader zero (lit ".a)))")
     = Ret (Node "a" nullptr nullptr)
  /\ recreateTreeFromHeader zero (lit ".a(((")
     = Ret (Node "a" nullptr nullptr).
Proof. repeat split. Qed.

Lemma end_of_stream_inside_code_is_no_error :
  decompress true zero 3
    {| file_header := lit "((.a.b).c)"; file_bits := [true; false] |} []
  = (lit "c", Ret (lit "0")).
Proof. reflexivity. Qed.

Lemma decompress_stops_with_bits_left_or_never :
  decompress true zero 2
    {| file_header := lit "(.a(.b.c))"; file_bits := [true] |} []
  = ([], Ret (lit "1"))
  /\ forall fuel,
       decompress true zero fuel
         {| file_header := lit ".z"; file_bits := [true; false] |} []
       = (repeat "z"%char fuel, Timeout).
Proof.
  split; [reflexivity|].
  intros fuel. apply (decompress_single_leaf true zero "z"%char [true; false] []).
Qed.

(** Runs of the further properties. *)

Lemma header_length_witness :
  length
    (flattenTreeToHeader
       (Node zero (Node "a" nullptr nullptr)
          (Node zero (Node "b" nullptr nullptr) (Node "c" nullptr nullptr))))
  + 2
  = 4 * length
          (leaves
             (Node zero (Node "a" nullptr nullptr)
                (Node zero (Node "b" nullptr nullptr) (Node "c" nullptr nullptr)))).
Proof. apply header_length. reflexivity. Defined.

Lemma parsed_tree_well_formed_witness :
  recreateTreeFromHeader zero (lit "x.a.by!")
  = Ret (Node zero (Node "a" nullptr nullptr) (Node "b" nullptr nullptr))
  /\ strictly_binary
       (Node zero (Node "a" nullptr nullptr) (Node "b" nullptr nullptr)) = true
  /\ recreateTreeFromHeader zero
       (flattenTreeToHeader
          (Node zero (Node "a" nullptr nullptr) (Node "b" nullptr nullptr)))
     = Ret (Node zero (Node "a" nullptr nullptr) (Node "b" nullptr nullptr))
  /\ length
       (flattenTreeToHeader
          (Node zero (Node "a" nullptr nullptr) (Node "b" nullptr nullptr)))
     <= length (lit "x.a.by!")
  /\ 2 <= length (lit "x.a.by!").
Proof.
  split; [reflexivity|].
  apply (@parsed_tree_well_formed zero (lit "x.a.by!")). reflexivity.
Defined.

Lemma built_tree_round_trip_witness :
  buildEncodingTree true zero [("a"%char, 3%Z); ("b"%char, 1%Z)]
  = Ret (Node zero (Node "b" nullptr nullptr) (Node "a" nullptr nullptr))
  /\ recreateTreeFromHeader zero
       (flattenTreeToHeader
          (Node zero (Node "b" nullptr nullptr) (Node "a" nullptr nullptr)))
     = Ret (Node zero (Node "b" nullptr nullptr) (Node "a" nullptr nullptr)).
Proof.
  split; [reflexivity|].
  apply (@built_tree_round_trip true zero [("a"%char, 3%Z); ("b"%char, 1%Z)]).
  reflexivity.
Defined.

Lemma root_priority_is_input_length_witness :
  (forall n q,
     combine_trips zero n
       (enqueue_leaves true (fst (buildFrequencyTable true (istream_of (lit "aaab")))))
     = Ret q ->
     Forall (fun e =>
               fst e = weight true
                         (fst (buildFrequencyTable true (istream_of (lit "aaab"))))
                         (snd e)) q)
  /\ combine_all zero
       (S (size (enqueue_leaves true
                   (fst (buildFrequencyTable true (istream_of (lit "aaab")))))))
       (enqueue_leaves true (fst (buildFrequencyTable true (istream_of (lit "aaab")))))
     = Ret [(Z.of_nat (length (unread (istream_of (lit "aaab")))),
             Node zero (Node "b" nullptr nullptr) (Node "a" nullptr nullptr))].
Proof.
  apply (@root_priority_is_input_length true zero (istream_of (lit "aaab"))).
  - unfold INT_MAX. simpl. lia.
  - reflexivity.
Defined.

Lemma code_length_bounds_witness :
  length (lit "1") < length (keys [("a"%char, 3%Z); ("b"%char, 1%Z)])
  /\ (2 <= length (keys [("a"%char, 3%Z); ("b"%char, 1%Z)]) ->
      1 <= length (lit "1")).
Proof.
  apply (@code_length_bounds true zero [("a"%char, 3%Z); ("b"%char, 1%Z)]
           (Node zero (Node "b" nullptr nullptr) (Node "a" nullptr nullptr))
           "a"%char (lit "1")); reflexivity.
Defined.

Lemma compress_writes_header_and_codes_witness :
  exists tree,
    compress true zero {| buffer := lit "xaab"; unread := lit "aab" |} empty_file
    = Ret ({| buffer := lit "xaab"; unread := [] |},
           {| file_header := flattenTreeToHeader tree;
              file_bits := payload true (buildEncodingMap true tree) (lit "xaab") |})
    /\ strictly_binary tree = true
    /\ NoDup (leaves tree)
    /\ (forall c, In c (leaves tree) <-> In c (lit "aab"))
    /\ (forall c, ~ In c (lit "aab") ->
          subscript (H:=char_Less true) [] (buildEncodingMap true tree) c = []).
Proof.
  apply (@compress_writes_header_and_codes true zero
           {| buffer := lit "xaab"; unread := lit "aab" |}).
  discriminate.
Defined.

Lemma two_symbols_one_bit_each_witness :
  exists input' file,
    compress true zero (istream_of (lit "abba")) empty_file = Ret (input', file)
    /\ length (file_header file) = 6
    /\ length (file_bits file) = length (lit "abba").
Proof.
  apply (@two_symbols_one_bit_each true zero (lit "abba") "a"%char "b"%char).
  - discriminate.
  - simpl. auto.
  - simpl. auto.
  - simpl. intuition.
Defined.

Lemma decompress_any_valid_header_witness :
  decompress true zero 4
    {| file_header :=
         flattenTreeToHeader
           (Node "x" (Node "a" nullptr nullptr)
              (Node "y" (Node "b" nullptr nullptr) (Node "c" nullptr nullptr)));
       file_bits :=
         payload true
           (buildEncodingMap true
              (Node "x" (Node "a" nullptr nullptr)
                 (Node "y" (Node "b" nullptr nullptr) (Node "c" nullptr nullptr))))
           (lit "cab") |}
    []
  = ([] ++ lit "cab", Ret []).
Proof.
  apply (@decompress_any_valid_header true zero
           (Node "x" (Node "a" nullptr nullptr)
              (Node "y" (Node "b" nullptr nullptr) (Node "c" nullptr nullptr)))
           (lit "cab") [] 4).
  - reflexivity.
  - repeat apply NoDup_cons; try apply NoDup_nil; simpl; intuition discriminate.
  - reflexivity.
  - repeat apply Forall_cons; try apply Forall_nil; simpl; auto.
  - simpl. lia.
Defined.

Lemma decompress_accounts_for_every_bit_witness :
  exists decoded,
    lit "ac" = [] ++ decoded
    /\ payload true
         (buildEncodingMap true
            (Node zero (Node "a" nullptr nullptr)
               (Node zero (Node "b" nullptr nullptr) (Node "c" nullptr nullptr))))
         decoded
       ++ map bit_of (lit "1")
       = [false; true; true; true].
Proof.
  apply (@decompress_accounts_for_every_bit true zero
           {| file_header := lit "(.a(.b.c))";
              file_bits := [false; true; true; true] |}
           (Node zero (Node "a" nullptr nullptr)
              (Node zero (Node "b" nullptr nullptr) (Node "c" nullptr nullptr)))
           [] (lit "ac") (lit "1") 3).
  - reflexivity.
  - repeat apply NoDup_cons; try apply NoDup_nil; simpl; intuition discriminate.
  - reflexivity.
Defined.

Lemma decompress_truncated_header_witness :
  decompress true zero 5
    {| file_header := lit "(.a"; file_bits := [true; false] |} (lit "kept")
  = (lit "kept", Throw out_of_range).
Proof.
  apply (@decompress_truncated_header true zero
           (Node zero (Node "a" nullptr nullptr) (Node "b" nullptr nullptr))
           (lit "(.a") (lit ".b)")).
  - reflexivity.
  - reflexivity.
  - discriminate.
Defined.

Lemma buildFrequencyTable_exact_counts_witness :
  unread (snd (buildFrequencyTable true (istream_of (lit "abracadabra")))) = []
  /\ get (H:=char_Less true) "a"%char
       (fst (buildFrequencyTable true (istream_of (lit "abracadabra"))))
     = (if (occurrences "a"%char (unread (istream_of (lit "abracadabra"))) =? 0)%Z
        then None
        else Some (occurrences "a"%char (unread (istream_of (lit "abracadabra")))))
  /\ fst (buildFrequencyTable true (istream_of [])) = [].
Proof.
  apply (@buildFrequencyTable_exact_counts true
           (istream_of (lit "abracadabra")) "a"%char).
  unfold INT_MAX. vm_compute. discriminate.
Defined.

(** A byte that occurs 2^31 times is counted as the least [int]. *)
Lemma count_wraps_past_INT_MAX :
  occurrences "a"%char (repeat "a"%char (Z.to_nat 2147483648)) = 2147483648%Z
  /\ get (H:=char_Less true) "a"%char
       (fst (buildFrequencyTable true
               {| buffer := [];
                  unread := repeat "a"%char (Z.to_nat 2147483648) |}))
     = Some (-2147483648)%Z.
Proof.
  assert (Hocc : occurrences "a"%char (repeat "a"%char (Z.to_nat 2147483648))
                 = 2147483648%Z).
  { rewrite occurrences_repeat. apply Z2Nat.id. discriminate. }
  split; [exact Hocc|].
  unfold buildFrequencyTable. cbn [fst unread].
  rewrite get_count_chars, Hocc. reflexivity.
Qed.

Lemma frequency_table_invariants_witness :
  keys_sorted true (fst (buildFrequencyTable true (istream_of (lit "abracadabra"))))
  /\ NoDup (keys (fst (buildFrequencyTable true (istream_of (lit "abracadabra")))))
  /\ (forall c,
        In c (keys (fst (buildFrequencyTable true (istream_of (lit "abracadabra")))))
        <-> In c (unread (istream_of (lit "abracadabra"))))
  /\ (forall c n,
        get (H:=char_Less true) c
          (fst (buildFrequencyTable true (istream_of (lit "abracadabra"))))
        = Some n -> (1 <= n)%Z)
  /\ table_total (fst (buildFrequencyTable true (istream_of (lit "abracadabra"))))
     = Z.of_nat (length (unread (istream_of (lit "abracadabra")))).
Proof.
  apply (@frequency_table_invariants true (istream_of (lit "abracadabra"))).
  unfold INT_MAX. simpl. lia.
Defined.
